(** * Richmond active-calls scraper ([scrape.py]): address normalisation,
      coordinate decoding and the geocoding pipeline.

    The development is a shallow embedding of [scrape.py].  Python [str]
    values are lists of characters whose code points are below 256; Python
    [float] values are IEEE 754 binary64 numbers in the specification
    format of the Standard Library ([spec_float], precision 53, exponent
    bound 1024); the geocoding client is an oracle whose answers may depend
    on everything that happened before the call; exceptions, the incident
    dictionary under construction, the output list and the sequence of
    network calls and sleeps live in a state-and-exception monad. *)

From Stdlib Require Import List Ascii String Bool Arith ZArith Lia QArith Qabs.
From Stdlib Require Import Floats.SpecFloat.
Import ListNotations.
Close Scope Q_scope.

Set Implicit Arguments.

(* ================================================================== *)
(** * Part I: the model                                                *)
(* ================================================================== *)

(** ** Python strings *)

(** A Python [str], restricted to code points below 256. *)
Definition str := list ascii.

(** String literals of the source text. *)
Definition py (s : string) : str := list_ascii_of_string s.

Definition code (c : ascii) : nat := nat_of_ascii c.

(** [str.isspace] on one character, which is also the class [\s] of the
    [re] module for [str] patterns: TAB, LF, VT, FF, CR, the separators
    FS, GS, RS, US, the space, NEL (0x85) and NBSP (0xA0). *)
Definition isspace (c : ascii) : bool :=
  let n := code c in
  ((9 <=? n) && (n <=? 13)) || ((28 <=? n) && (n <=? 32))
  || (n =? 133) || (n =? 160).

Fixpoint str_eqb (a b : str) : bool :=
  match a, b with
  | [], [] => true
  | x :: a', y :: b' => Ascii.eqb x y && str_eqb a' b'
  | _, _ => false
  end.

(** [strip_prefix p s] is [Some r] when [s = p ++ r]. *)
Fixpoint strip_prefix (p s : str) : option str :=
  match p with
  | [] => Some s
  | x :: p' =>
      match s with
      | y :: s' => if Ascii.eqb x y then strip_prefix p' s' else None
      | [] => None
      end
  end.

(** [s.startswith(p)] *)
Definition startswith (p s : str) : bool :=
  match strip_prefix p s with Some _ => true | None => false end.

(** [s.partition(sep)] when [sep] occurs in [s]: the text before the first
    occurrence and the text after it. *)
Fixpoint cut (sep s : str) : option (str * str) :=
  match strip_prefix sep s with
  | Some r => Some ([], r)
  | None =>
      match s with
      | [] => None
      | c :: s' =>
          match cut sep s' with
          | Some (a, b) => Some (c :: a, b)
          | None => None
          end
      end
  end.

(** [sub in s] *)
Definition contains (sub s : str) : bool :=
  match cut sub s with Some _ => true | None => false end.

(** [s.split(sep)] for a non-empty [sep]; the fuel bounds the number of
    separators, which is at most the length of [s]. *)
Fixpoint split_fuel (n : nat) (sep s : str) : list str :=
  match cut sep s with
  | None => [s]
  | Some (a, b) =>
      a :: match n with
           | O => [b]
           | S n' => split_fuel n' sep b
           end
  end.

Definition split (sep s : str) : list str := split_fuel (List.length s) sep s.

(** [s.replace(old, new)] for a non-empty [old]: the occurrences are found
    from the left and do not overlap. *)
Fixpoint replace_fuel (n : nat) (old new s : str) : str :=
  match cut old s with
  | None => s
  | Some (a, b) =>
      a ++ new ++ match n with
                  | O => b
                  | S n' => replace_fuel n' old new b
                  end
  end.

Definition replace (old new s : str) : str :=
  replace_fuel (List.length s) old new s.

Fixpoint dropWhile (f : ascii -> bool) (s : str) : str :=
  match s with
  | [] => []
  | c :: s' => if f c then dropWhile f s' else s
  end.

Fixpoint takeWhile (f : ascii -> bool) (s : str) : str :=
  match s with
  | [] => []
  | c :: s' => if f c then c :: takeWhile f s' else []
  end.

Definition lstrip (s : str) : str := dropWhile isspace s.
Definition rstrip (s : str) : str := rev (dropWhile isspace (rev s)).

(** [s.strip()] *)
Definition strip (s : str) : str := lstrip (rstrip s).

(** Truth value of a string: non-empty. *)
Definition truthy (s : str) : bool :=
  match s with [] => false | _ :: _ => true end.

(** ** The three regular expressions of the source *)

(** Where [$] matches without the MULTILINE flag: at the end of the string
    and just before a newline that is the last character. *)
Definition at_end (s : str) : bool :=
  match s with
  | [] => true
  | [c] => Ascii.eqb c "010"%char
  | _ => false
  end.

(** [\s+RICH$] tried at the head of [s]: at least one whitespace character,
    then as many more as there are (the next pattern character, [R], is no
    whitespace, so a shorter run can never succeed), then [RICH], then
    [$].  The result is what follows the match. *)
Definition match_ws_RICH (s : str) : option str :=
  match s with
  | c :: s' =>
      if isspace c then
        match strip_prefix (py "RICH") (dropWhile isspace s') with
        | Some r => if at_end r then Some r else None
        | None => None
        end
      else None
  | [] => None
  end.

(** [re.sub(r'\s+RICH$', '', s)]: the leftmost match is deleted.  What is
    left after a match is empty or one newline, where the pattern cannot
    match again, so the scan stops there. *)
Fixpoint re_sub_RICH (s : str) : str :=
  match match_ws_RICH s with
  | Some r => r
  | None =>
      match s with
      | [] => []
      | c :: s' => c :: re_sub_RICH s'
      end
  end.

(** [\s(NB|SB)$] tried at the head of [s]. *)
Definition match_ws_dir (s : str) : option str :=
  match s with
  | c :: s' =>
      if isspace c then
        match strip_prefix (py "NB") s' with
        | Some r => if at_end r then Some r else None
        | None =>
            match strip_prefix (py "SB") s' with
            | Some r => if at_end r then Some r else None
            | None => None
            end
        end
      else None
  | [] => None
  end.

(** [re.sub(r'\s(NB|SB)$', '', s)] *)
Fixpoint re_sub_dir (s : str) : str :=
  match match_ws_dir s with
  | Some r => r
  | None =>
      match s with
      | [] => []
      | c :: s' => c :: re_sub_dir s'
      end
  end.

Definition not_char (x : ascii) (c : ascii) : bool := negb (Ascii.eqb c x).

(** [LL\(([^,]+),([^)]+)\)] tried at the head of [s].  [[^,]+] is greedy
    and must be followed by a comma, so group 1 is the text up to the first
    comma; [[^)]+] likewise is the text up to the first closing
    parenthesis.  Both must be non-empty. *)
Definition match_LL (s : str) : option (str * str) :=
  match strip_prefix (py "LL(") s with
  | Some r =>
      let g1 := takeWhile (not_char ","%char) r in
      match g1, dropWhile (not_char ","%char) r with
      | _ :: _, _ :: r' =>
          let g2 := takeWhile (not_char ")"%char) r' in
          match g2, dropWhile (not_char ")"%char) r' with
          | _ :: _, _ :: _ => Some (g1, g2)
          | _, _ => None
          end
      | _, _ => None
      end
  | None => None
  end.

(** [re.search(r'LL\(([^,]+),([^)]+)\)', s)]: the groups of the leftmost
    match. *)
Fixpoint re_search_LL (s : str) : option (str * str) :=
  match match_LL s with
  | Some g => Some g
  | None =>
      match s with
      | [] => None
      | _ :: s' => re_search_LL s'
      end
  end.

(** ** Step 1 of the normaliser (lines 102-103) *)

(** [incident['street'].replace('-BLK', '').replace('/', ' and ')], then
    [re.sub(r'\s+RICH$', '', ...).strip()]. *)
Definition cleanup (street : str) : str :=
  strip (re_sub_RICH (replace (py "/") (py " and ")
                        (replace (py "-BLK") [] street))).

(** ** Python floats *)

(** Python's [float] is IEEE 754 binary64. *)
Definition float := spec_float.

Definition prec : Z := 53.
Definition emax : Z := 1024.

(** The exceptions a handler of the source tells apart, and one more for
    every other subclass of [Exception] a library call can raise. *)
Inductive exn : Type :=
| ValueError
| IndexError
| OtherException.

(** The outcome of an expression that can raise. *)
Definition result (A : Type) : Type := (exn + A)%type.

(** An [int] converted to [float] (exact for the constants of the source). *)
Definition float_of_int (n : Z) : float := binary_normalize prec emax n 0 false.

Definition fadd (x y : float) : float := SFadd prec emax x y.
Definition fdiv (x y : float) : float := SFdiv prec emax x y.
Definition fabs (x : float) : float := SFabs x.
Definition fneg (x : float) : float := SFopp x.
Definition flt (x y : float) : bool := SFltb x y.

(** The decimal value [(-1)^neg * m * 10^e] rounded to the nearest float,
    ties to even, as [float(str)] rounds the literal it reads. *)
Definition float_of_decimal (neg : bool) (m : Z) (e : Z) : float :=
  match m with
  | Zpos p =>
      if (0 <=? e)%Z
      then binary_normalize prec emax
             ((if neg then Z.opp (Zpos p) else Zpos p) * 10 ^ e)%Z 0 false
      else SFdiv prec emax (S754_finite neg p 0)
             (S754_finite false (Z.to_pos (10 ^ (- e))) 0)
  | _ => S754_zero neg
  end.

Definition is_digit (c : ascii) : bool :=
  let n := code c in (48 <=? n) && (n <=? 57).

Definition digit_val (c : ascii) : Z := Z.of_nat (code c - 48).

(** The rest of a [digitpart ::= digit (["_"] digit)*] after its first
    digit: [acc] is the value of the digits read so far and [cnt] their
    number.  An underscore is taken only when a digit follows it. *)
Fixpoint digitpart_tail (s : str) (acc : Z) (cnt : nat) : Z * nat * str :=
  match s with
  | c :: s' =>
      if is_digit c then digitpart_tail s' (10 * acc + digit_val c)%Z (S cnt)
      else if Ascii.eqb c "_"%char then
        match s' with
        | d :: s'' =>
            if is_digit d
            then digitpart_tail s'' (10 * acc + digit_val d)%Z (S cnt)
            else (acc, cnt, s)
        | [] => (acc, cnt, s)
        end
      else (acc, cnt, s)
  | [] => (acc, cnt, [])
  end.

(** A [digitpart] at the head of [s], continuing the digits [acc]. *)
Definition digitpart (s : str) (acc : Z) : option (Z * nat * str) :=
  match s with
  | d :: s' =>
      if is_digit d
      then Some (digitpart_tail s' (10 * acc + digit_val d)%Z 1)
      else None
  | [] => None
  end.

(** [number ::= [digitpart] "." digitpart | digitpart ["."]]: the digits
    as one integer, the number of digits after the point, and the rest. *)
Definition number (s : str) : option (Z * nat * str) :=
  match digitpart s 0 with
  | Some (i, _, r) =>
      match r with
      | c :: r' =>
          if Ascii.eqb c "."%char then
            match digitpart r' i with
            | Some (m, k, r'') => Some (m, k, r'')
            | None => Some (i, O, r')
            end
          else Some (i, O, r)
      | [] => Some (i, O, [])
      end
  | None =>
      match s with
      | c :: r' =>
          if Ascii.eqb c "."%char then digitpart r' 0 else None
      | [] => None
      end
  end.

(** An optional sign. *)
Definition sign (s : str) : bool * str :=
  match s with
  | c :: s' =>
      if Ascii.eqb c "-"%char then (true, s')
      else if Ascii.eqb c "+"%char then (false, s')
      else (false, s)
  | [] => (false, [])
  end.

(** [exponent ::= ("e" | "E") [sign] digitpart], up to the end of the
    string; no exponent at all is exponent 0. *)
Definition exponent (s : str) : option Z :=
  match s with
  | [] => Some 0%Z
  | c :: s' =>
      if Ascii.eqb c "e"%char || Ascii.eqb c "E"%char then
        let (neg, r) := sign s' in
        match digitpart r 0 with
        | Some (x, _, []) => Some (if neg then (- x)%Z else x)
        | _ => None
        end
      else None
  end.

(** [floatnumber ::= number [exponent]] *)
Definition floatnumber (neg : bool) (s : str) : option float :=
  match number s with
  | Some (m, k, r) =>
      match exponent r with
      | Some x => Some (float_of_decimal neg m (x - Z.of_nat k))
      | None => None
      end
  | None => None
  end.

Definition lower (c : ascii) : ascii :=
  let n := code c in
  if (65 <=? n) && (n <=? 90) then ascii_of_nat (n + 32) else c.

(** [float(s)] for a string: surrounding whitespace is dropped, then an
    optional sign, then [inf], [infinity] or [nan] in any letter case, or a
    decimal [floatnumber]; anything else raises [ValueError]. *)
Definition float_of_str (s : str) : result float :=
  let (neg, t) := sign (strip s) in
  let l := map lower t in
  if str_eqb l (py "inf") || str_eqb l (py "infinity")
  then inr (S754_infinity neg)
  else if str_eqb l (py "nan") then inr S754_nan
  else match floatnumber neg t with
       | Some x => inr x
       | None => inl ValueError
       end.

(** The exact rational value of a finite float. *)
Definition Q_of_float (x : float) : option Q :=
  match x with
  | S754_zero _ => Some 0%Q
  | S754_finite s m e =>
      let v := if (0 <=? e)%Z then inject_Z (Zpos m * 2 ^ e)%Z
               else Qmake (Zpos m) (Z.to_pos (2 ^ (- e))%Z) in
      Some (if s then Qopp v else v)
  | _ => None
  end.

(** ** The coordinate decoder (lines 112-117) *)

(** [l[i]] *)
Definition index (A : Type) (l : list A) (i : nat) : result A :=
  match nth_error l i with
  | Some x => inr x
  | None => inl IndexError
  end.

(** [[float(p) for p in ps]]: the first part that is no number raises. *)
Fixpoint floats_of (ps : list str) : result (list float) :=
  match ps with
  | [] => inr []
  | p :: ps' =>
      match float_of_str p with
      | inl e => inl e
      | inr x =>
          match floats_of ps' with
          | inl e => inl e
          | inr xs => inr (x :: xs)
          end
      end
  end.

(** [abs(parts[0]) + parts[1]/60 + parts[2]/3600], negated when
    [parts[0] < 0]. *)
Definition dd_of (d m s : float) : float :=
  let dd := fadd (fadd (fabs d) (fdiv m (float_of_int 60)))
                 (fdiv s (float_of_int 3600)) in
  if flt d (float_of_int 0) then fneg dd else dd.

Definition dms_to_dd (dms : str) : result float :=
  match floats_of (split (py ":") dms) with
  | inl e => inl e
  | inr parts =>
      match index parts 0 with
      | inl e => inl e
      | inr p0 =>
          match index parts 1 with
          | inl e => inl e
          | inr p1 =>
              match index parts 2 with
              | inl e => inl e
              | inr p2 => inr (dd_of p0 p1 p2)
              end
          end
      end
  end.

(** ** The geocoding client and the state of a run *)

(** The [address] object of a reverse-geocoding answer: a dictionary from
    field names to strings. *)
Definition address := list (str * str).

(** [d.get(k)] *)
Fixpoint dict_get (d : address) (k : str) : option str :=
  match d with
  | [] => None
  | (k', v) :: d' => if str_eqb k' k then Some v else dict_get d' k
  end.

(** [d.get(k, default)] *)
Definition dict_get_default (d : address) (k default : str) : str :=
  match dict_get d k with Some v => v | None => default end.

(** [x or y], where [x] is the value of a [get] without default ([None]
    when the key is missing) and [y] a string. *)
Definition or_else (x : option str) (y : str) : str :=
  match x with
  | Some v => if truthy v then v else y
  | None => y
  end.

(** A [Location] of the client: its coordinates and the [address] entry of
    its [raw] payload ([None] when the payload is empty or has no such
    entry). *)
Record location : Type := {
  latitude : float;
  longitude : float;
  raw_address : option address
}.

(** What the run does to the outside world, in order. *)
Inductive event : Type :=
| EvGeocode (query : str)
| EvReverse (lat lon : float)
| EvSleep (seconds : Q).

(** The answer of a client call: an exception, or [None], or a location. *)
Inductive reply : Type :=
| Raises (e : exn)
| Returns (l : option location).

(** The [Nominatim] client.  An answer may depend on everything that
    happened before the call. *)
Record Nominatim : Type := {
  geocode : list event -> str -> reply;
  reverse : list event -> float -> float -> reply
}.

(** The incident dictionary.  The keys [lat] and [lng] are not in the
    dictionary when it is created: for them [None] is a missing key,
    [Some None] the value [None] and [Some (Some x)] a float. *)
Record incident : Type := {
  type_general : str;
  dispatch_time : str;
  box_no : str;
  type_specific : str;
  street : str;
  status : str;
  cross_street : str;
  nearest_intersection : str;
  location_township : str;
  lat : option (option float);
  lng : option (option float)
}.

Definition set_lat (v : option float) (i : incident) : incident :=
  {| type_general := type_general i; dispatch_time := dispatch_time i;
     box_no := box_no i; type_specific := type_specific i;
     street := street i; status := status i;
     cross_street := cross_street i;
     nearest_intersection := nearest_intersection i;
     location_township := location_township i;
     lat := Some v; lng := lng i |}.

Definition set_lng (v : option float) (i : incident) : incident :=
  {| type_general := type_general i; dispatch_time := dispatch_time i;
     box_no := box_no i; type_specific := type_specific i;
     street := street i; status := status i;
     cross_street := cross_street i;
     nearest_intersection := nearest_intersection i;
     location_township := location_township i;
     lat := lat i; lng := Some v |}.

Definition set_nearest_intersection (v : str) (i : incident) : incident :=
  {| type_general := type_general i; dispatch_time := dispatch_time i;
     box_no := box_no i; type_specific := type_specific i;
     street := street i; status := status i;
     cross_street := cross_street i;
     nearest_intersection := v;
     location_township := location_township i;
     lat := lat i; lng := lng i |}.

(** The mutable state of [scrape_incidents]: the dictionary bound to
    [incident], the list [incidents], and the events so far. *)
Record state : Type := {
  cur : incident;
  incidents : list incident;
  trace : list event
}.

(** Statements: they change the state and end normally or by raising.  The
    state reached when an exception is raised is kept, as in Python. *)
Definition M (A : Type) : Type := state -> result A * state.

Definition ret (A : Type) (x : A) : M A := fun s => (inr x, s).

Definition bind (A B : Type) (m : M A) (f : A -> M B) : M B :=
  fun s => match m s with
           | (inr x, s') => f x s'
           | (inl e, s') => (inl e, s')
           end.

Declare Scope py_scope.
Delimit Scope py_scope with py.
Notation "x <- m ;; k" := (bind m (fun x => k))
  (at level 61, m at next level, right associativity) : py_scope.
Notation "m ;; k" := (bind m (fun _ => k))
  (at level 61, right associativity) : py_scope.
Open Scope py_scope.

(** An expression that can raise, used as a statement. *)
Definition lift (A : Type) (r : result A) : M A := fun s => (r, s).

(** [try: body except <classes>: handler] *)
Definition try_except (A : Type) (body : M A) (classes : exn -> bool)
    (handler : M A) : M A :=
  fun s => match body s with
           | (inl e, s') => if classes e then handler s' else (inl e, s')
           | r => r
           end.

(** [except Exception] *)
Definition Exception (e : exn) : bool := true.

(** [except (ValueError, IndexError)] *)
Definition ValueError_or_IndexError (e : exn) : bool :=
  match e with
  | ValueError | IndexError => true
  | OtherException => false
  end.

Definition get_incident : M incident := fun s => (inr (cur s), s).

Definition update_incident (f : incident -> incident) : M unit :=
  fun s => (inr tt, {| cur := f (cur s); incidents := incidents s;
                       trace := trace s |}).

(** [incident = {...}] *)
Definition new_incident (i : incident) : M unit := update_incident (fun _ => i).

(** [incidents.append(incident)] *)
Definition append_incident : M unit :=
  fun s => (inr tt, {| cur := cur s; incidents := incidents s ++ [cur s];
                       trace := trace s |}).

Definition emit (e : event) : state -> state :=
  fun s => {| cur := cur s; incidents := incidents s;
              trace := trace s ++ [e] |}.

Definition of_reply (r : reply) : result (option location) :=
  match r with
  | Raises e => inl e
  | Returns l => inr l
  end.

(** [geolocator.geocode(query, timeout=5)] *)
Definition call_geocode (g : Nominatim) (query : str) : M (option location) :=
  fun s => (of_reply (geocode g (trace s) query), emit (EvGeocode query) s).

(** [geolocator.reverse((lat, lon), exactly_one=True, language='en',
    timeout=5)] *)
Definition call_reverse (g : Nominatim) (la lo : float) : M (option location) :=
  fun s => (of_reply (reverse g (trace s) la lo), emit (EvReverse la lo) s).

(** [time.sleep(seconds)] *)
Definition sleep (seconds : Q) : M unit :=
  fun s => (inr tt, emit (EvSleep seconds) s).

(** ** [get_nearest_intersection] (lines 9-46) *)

(** Lines 22-42: the label read off the [address] dictionary. *)
Definition label_of_address (a : address) : str :=
  let road := or_else (dict_get a (py "road"))
                (or_else (dict_get a (py "street"))
                   (dict_get_default a (py "pedestrian") [])) in
  let suburb := dict_get_default a (py "suburb") [] in
  if truthy road && (contains (py "&") road || contains (py "/") road)
  then road
  else if truthy road && truthy suburb then road ++ py ", " ++ suburb
  else if truthy road then road
  else if truthy suburb then suburb
  else [].

Definition get_nearest_intersection (lat lon : option float)
    (geolocator : Nominatim) : M str :=
  match lat, lon with
  | Some la, Some lo =>
      try_except
        (loc <- call_reverse geolocator la lo ;;
         match loc with
         | Some l =>
             match raw_address l with
             | Some a => ret (label_of_address a)
             | None => ret []
             end
         | None => ret []
         end)
        Exception
        (ret [])
  | _, _ => ret []
  end.

(** ** The loop body of [scrape_incidents] (lines 86-193) *)

(** [cells[i].text.strip()] *)
Definition cell (cells : list str) (i : nat) : str := strip (nth i cells []).

(** Lines 89-99. *)
Definition incident_of_cells (cells : list str) : incident :=
  {| type_general := cell cells 1;
     dispatch_time := cell cells 0;
     box_no := cell cells 2;
     type_specific := cell cells 4;
     street := cell cells 5;
     status := cell cells 6;
     cross_street := [];
     nearest_intersection := [];
     location_township := cell cells 2;
     lat := None;
     lng := None |}.

(** The value of a key that holds a float or [None] ([None] too when the
    key is missing, which the callers never see). *)
Definition coordinate (v : option (option float)) : option float :=
  match v with Some x => x | None => None end.

(** Lines 125-130 and 173-178. *)
Definition reverse_step (geolocator : Nominatim) : M unit :=
  i <- get_incident ;;
  intersection <- get_nearest_intersection (coordinate (lat i))
                    (coordinate (lng i)) geolocator ;;
  if truthy intersection
  then update_incident (set_nearest_intersection intersection)
  else ret tt.

(** Lines 106-142: the branch for [LL(...)] strings. *)
Definition ll_branch (geolocator : Nominatim) (cleaned_street : str) : M unit :=
  match re_search_LL cleaned_street with
  | Some (g1, g2) =>
      let lon_dms := strip g1 in
      let lat_dms := strip g2 in
      try_except
        (x <- lift (dms_to_dd lon_dms) ;;
         update_incident (set_lng (Some x)) ;;
         y <- lift (dms_to_dd lat_dms) ;;
         update_incident (set_lat (Some y)) ;;
         reverse_step geolocator)
        ValueError_or_IndexError
        (update_incident (set_lat None) ;;
         update_incident (set_lng None))
  | None =>
      update_incident (set_lat None) ;;
      update_incident (set_lng None)
  end ;;
  append_incident.

(** Line 151: [cleaned_street.split('@')[1].split('BETWEEN')[0].strip()] *)
Definition main_street_of (cleaned_street : str) : result str :=
  match index (split (py "@") cleaned_street) 1 with
  | inl e => inl e
  | inr after =>
      match index (split (py "BETWEEN") after) 0 with
      | inl e => inl e
      | inr before => inr (strip before)
      end
  end.

(** Lines 145-158: the text handed to the forward geocoder. *)
Definition address_to_geocode (cleaned_street : str) : result str :=
  if contains (py " and ") cleaned_street then
    index (split (py " and ") cleaned_street) 0
  else if contains (py "RICH: @") cleaned_street
          && contains (py "BETWEEN") cleaned_street then
    match main_street_of cleaned_street with
    | inr main_street => inr (re_sub_dir main_street)
    | inl IndexError => inr cleaned_street
    | inl e => inl e
    end
  else inr cleaned_street.

(** The pause of line 193, in seconds. *)
Definition delay : Q := (11 # 10)%Q.

(** Lines 144-193: the branch for every other string. *)
Definition nominatim_branch (geolocator : Nominatim) (cleaned_street : str)
    : M unit :=
  a <- lift (address_to_geocode cleaned_street) ;;
  let full_address := a ++ py ", Richmond, VA" in
  try_except
    (loc <- call_geocode geolocator full_address ;;
     match loc with
     | Some l =>
         update_incident (set_lat (Some (latitude l))) ;;
         update_incident (set_lng (Some (longitude l))) ;;
         reverse_step geolocator
     | None =>
         update_incident (set_lat None) ;;
         update_incident (set_lng None)
     end)
    Exception
    (update_incident (set_lat None) ;;
     update_incident (set_lng None)) ;;
  append_incident ;;
  sleep delay.

(** Lines 102-193, from the cleaned string on. *)
Definition geocoding_step (geolocator : Nominatim) (cleaned_street : str)
    : M unit :=
  if startswith (py "LL(") cleaned_street
  then ll_branch geolocator cleaned_street
  else nominatim_branch geolocator cleaned_street.

(** Lines 86-193: one [tr], given as the texts of its [td] cells. *)
Definition process_row (geolocator : Nominatim) (cells : list str) : M unit :=
  if 7 <=? List.length cells then
    new_incident (incident_of_cells cells) ;;
    i <- get_incident ;;
    geocoding_step geolocator (cleanup (street i))
  else ret tt.

(** [for row in ...: ...] *)
Fixpoint for_rows (geolocator : Nominatim) (rows : list (list str)) : M unit :=
  match rows with
  | [] => ret tt
  | cells :: rows' =>
      process_row geolocator cells ;; for_rows geolocator rows'
  end.

(** Lines 83-196 for a table that was found: [incidents = []], the loop
    over [table.find_all('tr')[1:]], [return incidents]. *)
Definition scrape_incidents (geolocator : Nominatim) (trs : list (list str))
    : M (list incident) :=
  for_rows geolocator (tl trs) ;;
  fun s => (inr (incidents s), s).

Definition blank : incident :=
  {| type_general := []; dispatch_time := []; box_no := [];
     type_specific := []; street := []; status := []; cross_street := [];
     nearest_intersection := []; location_township := [];
     lat := None; lng := None |}.

(** The state in which the loop starts. *)
Definition start : state := {| cur := blank; incidents := []; trace := [] |}.

(** ** Outcomes named by the specification *)

(** The Coordinate Codec seen as a function: the outcome of lines 107-121
    on a cleaned string. *)
Inductive parse : Type :=
| DirectCoordinates (lon_dd lat_dd : float)
| ParseFailure.

Definition decode (cleaned_street : str) : parse :=
  match re_search_LL cleaned_street with
  | Some (g1, g2) =>
      match dms_to_dd (strip g1), dms_to_dd (strip g2) with
      | inr x, inr y => DirectCoordinates x y
      | _, _ => ParseFailure
      end
  | None => ParseFailure
  end.






(** The incident appended for a row whose coordinates were not resolved. *)
Definition unresolved (i : incident) : Prop :=
  lat i = Some None /\ lng i = Some None /\ nearest_intersection i = [].

(** The incident appended for a row whose coordinates were resolved. *)
Definition resolved (i : incident) : Prop :=
  exists x y, lat i = Some (Some y) /\ lng i = Some (Some x).

(** The fields copied from the table. *)
Definition same_table_fields (i j : incident) : Prop :=
  type_general i = type_general j /\ dispatch_time i = dispatch_time j /\
  box_no i = box_no j /\ type_specific i = type_specific j /\
  street i = street j /\ status i = status j /\
  cross_street i = cross_street j /\
  location_township i = location_township j.

(** The label that [get_nearest_intersection] returns for coordinates that
    are not [None], from the answer of the client after the events [t]. *)
Definition reverse_label (g : Nominatim) (t : list event) (la lo : float)
    : str :=
  match reverse g t la lo with
  | Returns (Some l) =>
      match raw_address l with
      | Some a => label_of_address a
      | None => []
      end
  | _ => []
  end.

(** Lines 126-127 and 174-175: a label that is not empty is stored. *)
Definition labelled (label : str) (i : incident) : incident :=
  if truthy label then set_nearest_intersection label i else i.

(** The state after the [LL(...)] branch, closed form. *)
Definition after_ll_branch (g : Nominatim) (c : str) (s : state) : state :=
  match decode c with
  | DirectCoordinates x y =>
      let i := labelled (reverse_label g (trace s) y x)
                 (set_lat (Some y) (set_lng (Some x) (cur s))) in
      {| cur := i; incidents := incidents s ++ [i];
         trace := trace s ++ [EvReverse y x] |}
  | ParseFailure =>
      let i := set_lng None (set_lat None (cur s)) in
      {| cur := i; incidents := incidents s ++ [i]; trace := trace s |}
  end.

(** The state after the forward-geocoding branch for the address [a],
    closed form. *)
Definition after_nominatim_branch (g : Nominatim) (a : str) (s : state)
    : state :=
  let q := a ++ py ", Richmond, VA" in
  match geocode g (trace s) q with
  | Returns (Some l) =>
      let t := trace s ++ [EvGeocode q] in
      let i := labelled (reverse_label g t (latitude l) (longitude l))
                 (set_lng (Some (longitude l))
                    (set_lat (Some (latitude l)) (cur s))) in
      {| cur := i; incidents := incidents s ++ [i];
         trace := (t ++ [EvReverse (latitude l) (longitude l)])
                  ++ [EvSleep delay] |}
  | _ =>
      let i := set_lng None (set_lat None (cur s)) in
      {| cur := i; incidents := incidents s ++ [i];
         trace := (trace s ++ [EvGeocode q]) ++ [EvSleep delay] |}
  end.

(** Every resolution step fails for the row: its [LL(...)] text does not
    decode, or it has no such text and the forward geocoder never finds a
    location. *)
Definition all_steps_fail (g : Nominatim) (cells : list str) : Prop :=
  let c := cleanup (cell cells 5) in
  if startswith (py "LL(") c then decode c = ParseFailure
  else forall t q l, geocode g t q <> Returns (Some l).

(** The incident [i] is what the run appends for the row [cells]. *)
Definition emitted (g : Nominatim) (cells : list str) (i : incident) : Prop :=
  same_table_fields i (incident_of_cells cells) /\
  (resolved i \/ unresolved i) /\
  (all_steps_fail g cells -> unresolved i).

(** The rows of the table that become incidents: all but the header row,
    with at least seven cells. *)
Definition parsed_rows (trs : list (list str)) : list (list str) :=
  filter (fun cells => 7 <=? List.length cells) (tl trs).


Definition is_sleep (e : event) : bool :=
  match e with EvSleep _ => true | _ => false end.

Definition is_geocode (e : event) : bool :=
  match e with EvGeocode _ => true | _ => false end.

(** The branch of line 148 is the one that runs. *)
Definition between_branch (cleaned_street : str) : bool :=
  negb (contains (py " and ") cleaned_street)
  && contains (py "RICH: @") cleaned_street
  && contains (py "BETWEEN") cleaned_street.


(** The string ends in a whitespace character followed by [RICH]. *)
Definition ends_ws_RICH (s : str) : bool :=
  match strip_prefix (rev (py "RICH")) (rev s) with
  | Some (w :: _) => isspace w
  | _ => false
  end.

(** A field that is present: bound to a non-empty string. *)
Definition present (a : address) (k : str) : option str :=
  match dict_get a k with
  | Some v => if truthy v then Some v else None
  | None => None
  end.

(** The road candidate in the specification's words: the first present of
    [road], [street], [pedestrian]. *)
Definition road_candidate (a : address) : option str :=
  match present a (py "road") with
  | Some v => Some v
  | None =>
      match present a (py "street") with
      | Some v => Some v
      | None => present a (py "pedestrian")
      end
  end.

(** The label in the specification's words (rules 3 to 7 of its
    Intersection Resolver). *)
Definition spec_label (road suburb : option str) : str :=
  match road, suburb with
  | Some r, Some sb =>
      if contains (py "&") r || contains (py "/") r then r
      else r ++ py ", " ++ sb
  | Some r, None => r
  | None, Some sb => sb
  | None, None => []
  end.

(** A stub client for concrete runs: every forward query is answered by
    one fixed location, every reverse query by its address. *)
Definition stub_location : location :=
  {| latitude := float_of_int 37; longitude := float_of_int (-77);
     raw_address := Some [(py "road", py "Main St");
                          (py "suburb", py "Downtown")] |}.

Definition stub : Nominatim :=
  {| geocode := fun _ _ => Returns (Some stub_location);
     reverse := fun _ _ _ => Returns (Some stub_location) |}.

(** A client whose every call raises. *)
Definition down : Nominatim :=
  {| geocode := fun _ _ => Raises OtherException;
     reverse := fun _ _ _ => Raises OtherException |}.

(** A table row with the given location text in its sixth cell. *)
Definition row_with (location_text : str) : list str :=
  [py "12:00"; py "FIRE"; py "B1"; []; py "ALARM"; location_text; py "ACTIVE"].

(** ** The rest of the program: fetching the page and the main block *)






(** ** More vocabulary for the properties *)

Definition is_reverse (e : event) : bool :=
  match e with EvReverse _ _ => true | _ => false end.

(** Both coordinates of the incident are floats. *)
Definition has_coordinates (i : incident) : bool :=
  match lat i, lng i with
  | Some (Some _), Some (Some _) => true
  | _, _ => false
  end.

(** The row goes to the forward geocoder: its cleaned location text does
    not start with [LL(]. *)
Definition forward_row (cells : list str) : bool :=
  negb (startswith (py "LL(") (cleanup (cell cells 5))).

(** The answers of the client do not depend on what happened before. *)
Definition history_independent (g : Nominatim) : Prop :=
  (forall t t' q, geocode g t q = geocode g t' q) /\
  (forall t t' la lo, reverse g t la lo = reverse g t' la lo).

(** A float that is neither a zero nor NaN. *)
Definition nonzero_number (x : float) : bool :=
  match x with
  | S754_finite _ _ _ | S754_infinity _ => true
  | _ => false
  end.

(** [a] is a contiguous part of [b]. *)
Definition part_of (a b : str) : Prop := exists p q, b = p ++ a ++ q.

(** A client that finds every address and whose reverse lookup raises. *)
Definition flaky : Nominatim :=
  {| geocode := fun _ _ => Returns (Some stub_location);
     reverse := fun _ _ _ => Raises OtherException |}.

(* ================================================================== *)
(** * Part II: properties                                              *)
(* ================================================================== *)

Unset Implicit Arguments.

Arguments isspace : simpl never.
Arguments is_digit : simpl never.

(** ** Strings *)

Section Strings.


Lemma strip_prefix_Some (p s r : str) :
  strip_prefix p s = Some r <-> s = p ++ r.
Proof.
  revert s; induction p as [|x p IH]; intros s; simpl.
  - split; [intros H; inversion H; reflexivity | intros ->; reflexivity].
  - destruct s as [|y s].
    + split; discriminate.
    + destruct (Ascii.eqb x y) eqn:E.
      * apply Ascii.eqb_eq in E; subst y. rewrite IH.
        split; [intros ->; reflexivity | intros H; inversion H; reflexivity].
      * split; [discriminate|]. intros H; inversion H; subst.
        rewrite Ascii.eqb_refl in E; discriminate.
Qed.

Lemma strip_prefix_app (p r : str) : strip_prefix p (p ++ r) = Some r.
Proof. apply strip_prefix_Some; reflexivity. Qed.

Lemma strip_prefix_None_app (p s r : str) :
  strip_prefix p s = None -> List.length p <= List.length s ->
  strip_prefix p (s ++ r) = None.
Proof.
  revert s; induction p as [|x p IH]; intros s; simpl; [discriminate|].
  destruct s as [|y s]; simpl; [lia|].
  destruct (Ascii.eqb x y); [|reflexivity].
  intros H L; apply IH; [assumption | lia].
Qed.

Lemma cut_Some (sep s a b : str) :
  cut sep s = Some (a, b) -> s = a ++ sep ++ b.
Proof.
  revert a b; induction s as [|c s IH]; intros a b; simpl.
  - destruct (strip_prefix sep []) eqn:E; [|discriminate].
    intros H; inversion H; subst. apply strip_prefix_Some in E. exact E.
  - destruct (strip_prefix sep (c :: s)) eqn:E.
    + intros H; inversion H; subst. apply strip_prefix_Some in E. exact E.
    + destruct (cut sep s) as [[a' b']|]; [|discriminate].
      intros H; inversion H; subst. simpl. f_equal. apply IH; reflexivity.
Qed.

(** The occurrence found by [cut] is the first one. *)
Lemma cut_first (sep s a b : str) :
  cut sep s = Some (a, b) ->
  forall p q, s = p ++ sep ++ q -> List.length a <= List.length p.
Proof.
  revert a b; induction s as [|c s IH]; intros a b; simpl.
  - destruct (strip_prefix sep []); [|discriminate].
    intros H; inversion H; simpl; lia.
  - destruct (strip_prefix sep (c :: s)) eqn:E.
    + intros H; inversion H; simpl; lia.
    + destruct (cut sep s) as [[a' b']|] eqn:C; [|discriminate].
      intros H; inversion H; subst. intros [|x p] q Hs; simpl in *.
      * rewrite Hs, strip_prefix_app in E; discriminate.
      * inversion Hs; subst. apply le_n_S. eapply IH; eauto.
Qed.

Lemma cut_None (sep s : str) :
  cut sep s = None -> forall p q, s <> p ++ sep ++ q.
Proof.
  induction s as [|c s IH]; simpl.
  - destruct (strip_prefix sep []) eqn:E; [discriminate|].
    intros _ [|x p] q Hs; [|discriminate].
    simpl in Hs. rewrite Hs, strip_prefix_app in E; discriminate.
  - destruct (strip_prefix sep (c :: s)) eqn:E; [discriminate|].
    destruct (cut sep s) as [[a' b']|] eqn:C; [discriminate|].
    intros _ [|x p] q Hs.
    + simpl in Hs. rewrite Hs, strip_prefix_app in E; discriminate.
    + inversion Hs; subst. eapply IH; eauto.
Qed.

Lemma cut_app (sep p q : str) :
  exists a b, cut sep (p ++ sep ++ q) = Some (a, b).
Proof.
  destruct (cut sep (p ++ sep ++ q)) as [[a b]|] eqn:C; [eauto|].
  exfalso; eapply cut_None; eauto.
Qed.

Lemma contains_true (sub s : str) :
  contains sub s = true <-> exists p q, s = p ++ sub ++ q.
Proof.
  unfold contains. destruct (cut sub s) as [[a b]|] eqn:C.
  - split; [intros _; exists a, b; eapply cut_Some; eauto | reflexivity].
  - split; [discriminate|]. intros (p & q & H).
    exfalso; eapply cut_None; eauto.
Qed.

Lemma cut_shorter (sep s a b : str) :
  sep <> [] -> cut sep s = Some (a, b) -> List.length b < List.length s.
Proof.
  intros N C. apply cut_Some in C. subst s.
  rewrite !length_app. destruct sep; [congruence|simpl; lia].
Qed.

Lemma split_fuel_enough (sep : str) (n : nat) :
  sep <> [] -> forall s m, List.length s <= n -> List.length s <= m ->
  split_fuel n sep s = split_fuel m sep s.
Proof.
  intros N. induction n as [|n IH]; intros s m Ln Lm.
  - destruct s; [|simpl in Ln; lia].
    destruct m; cbn [split_fuel]; destruct (cut sep []) as [[a b]|] eqn:C;
      try reflexivity; apply cut_shorter in C; auto; simpl in C; lia.
  - cbn [split_fuel]. destruct m; cbn [split_fuel].
    + destruct s; [|simpl in Lm; lia].
      destruct (cut sep []) as [[a b]|] eqn:C; try reflexivity.
      apply cut_shorter in C; auto; simpl in C; lia.
    + destruct (cut sep s) as [[a b]|] eqn:C; [|reflexivity].
      f_equal. apply cut_shorter in C; auto. apply IH; lia.
Qed.

(** The equation of [split]. *)
Lemma split_eq (sep s : str) :
  sep <> [] ->
  split sep s = match cut sep s with
                | None => [s]
                | Some (a, b) => a :: split sep b
                end.
Proof.
  intros N. unfold split. destruct s as [|c s].
  - cbn [List.length split_fuel].
    destruct (cut sep []) as [[a b]|] eqn:C; [|reflexivity].
    apply cut_shorter in C; auto; simpl in C; lia.
  - cbn [List.length split_fuel].
    destruct (cut sep (c :: s)) as [[a b]|] eqn:C; [|reflexivity].
    f_equal. apply cut_shorter in C; auto. simpl in C.
    apply split_fuel_enough; auto; lia.
Qed.

Lemma replace_fuel_enough (old new : str) (n : nat) :
  old <> [] -> forall s m, List.length s <= n -> List.length s <= m ->
  replace_fuel n old new s = replace_fuel m old new s.
Proof.
  intros N. induction n as [|n IH]; intros s m Ln Lm.
  - destruct s; [|simpl in Ln; lia].
    destruct m; cbn [replace_fuel]; destruct (cut old []) as [[a b]|] eqn:C;
      try reflexivity; apply cut_shorter in C; auto; simpl in C; lia.
  - cbn [replace_fuel]. destruct m; cbn [replace_fuel].
    + destruct s; [|simpl in Lm; lia].
      destruct (cut old []) as [[a b]|] eqn:C; try reflexivity.
      apply cut_shorter in C; auto; simpl in C; lia.
    + destruct (cut old s) as [[a b]|] eqn:C; [|reflexivity].
      do 2 f_equal. apply cut_shorter in C; auto. apply IH; lia.
Qed.

(** The equation of [replace]. *)
Lemma replace_eq (old new s : str) :
  old <> [] ->
  replace old new s = match cut old s with
                      | None => s
                      | Some (a, b) => a ++ new ++ replace old new b
                      end.
Proof.
  intros N. unfold replace. destruct s as [|c s].
  - cbn [List.length replace_fuel].
    destruct (cut old []) as [[a b]|] eqn:C; [|reflexivity].
    apply cut_shorter in C; auto; simpl in C; lia.
  - cbn [List.length replace_fuel].
    destruct (cut old (c :: s)) as [[a b]|] eqn:C; [|reflexivity].
    do 2 f_equal. apply cut_shorter in C; auto. simpl in C.
    apply replace_fuel_enough; auto; lia.
Qed.

End Strings.

(** ** Whitespace *)

Section Whitespace.

Lemma dropWhile_length (f : ascii -> bool) (s : str) :
  List.length (dropWhile f s) <= List.length s.
Proof.
  induction s as [|c s IH]; simpl; [lia|].
  destruct (f c); simpl; lia.
Qed.

Lemma dropWhile_idem (f : ascii -> bool) (s : str) :
  dropWhile f (dropWhile f s) = dropWhile f s.
Proof.
  induction s as [|c s IH]; simpl; [reflexivity|].
  destruct (f c) eqn:E; [exact IH|]. simpl. rewrite E. reflexivity.
Qed.

Lemma dropWhile_In (f : ascii -> bool) (s : str) (x : ascii) :
  In x (dropWhile f s) -> In x s.
Proof.
  induction s as [|c s IH]; simpl; [tauto|].
  destruct (f c); simpl; tauto.
Qed.

Lemma dropWhile_snoc (f : ascii -> bool) (s : str) (c : ascii) :
  dropWhile f (s ++ [c]) =
  match dropWhile f s with
  | [] => if f c then [] else [c]
  | y => y ++ [c]
  end.
Proof.
  induction s as [|x s IH]; simpl; [reflexivity|].
  destruct (f x); [exact IH | reflexivity].
Qed.

(** [rstrip], read from the left. *)
Lemma rstrip_cons (c : ascii) (s : str) :
  rstrip (c :: s) =
  match rstrip s with
  | [] => if isspace c then [] else [c]
  | y => c :: y
  end.
Proof.
  unfold rstrip. simpl. rewrite dropWhile_snoc.
  destruct (dropWhile isspace (rev s)) as [|y l] eqn:E; simpl.
  - destruct (isspace c); reflexivity.
  - rewrite rev_app_distr. simpl.
    destruct (rev l ++ [y]) eqn:E'; [|reflexivity].
    destruct (rev l); discriminate.
Qed.

Lemma rstrip_nil : rstrip [] = [].
Proof. reflexivity. Qed.

Lemma rstrip_idem (s : str) : rstrip (rstrip s) = rstrip s.
Proof.
  unfold rstrip. rewrite rev_involutive, dropWhile_idem. reflexivity.
Qed.

Lemma lstrip_idem (s : str) : lstrip (lstrip s) = lstrip s.
Proof. apply dropWhile_idem. Qed.

Lemma rstrip_In (s : str) (x : ascii) : In x (rstrip s) -> In x s.
Proof.
  unfold rstrip. intros H. apply in_rev in H. apply dropWhile_In in H.
  apply in_rev in H. exact H.
Qed.

Lemma strip_In (s : str) (x : ascii) : In x (strip s) -> In x s.
Proof. intros H. apply rstrip_In. eapply dropWhile_In. exact H. Qed.

Lemma lstrip_rstrip (s : str) : lstrip (rstrip s) = rstrip (lstrip s).
Proof.
  induction s as [|c s IH]; [reflexivity|].
  rewrite rstrip_cons. unfold lstrip at 2. simpl dropWhile.
  destruct (isspace c) eqn:E.
  - fold (lstrip s). rewrite <- IH.
    destruct (rstrip s) as [|y l]; [reflexivity|].
    unfold lstrip. cbn [dropWhile]. rewrite E. reflexivity.
  - rewrite rstrip_cons.
    destruct (rstrip s) as [|y l]; unfold lstrip; cbn [dropWhile];
      rewrite E; reflexivity.
Qed.

Lemma strip_idem (s : str) : strip (strip s) = strip s.
Proof.
  unfold strip. rewrite <- (lstrip_rstrip (rstrip s)).
  rewrite lstrip_idem, rstrip_idem. reflexivity.
Qed.



(** A stripped string does not end in whitespace. *)
Lemma rstrip_fixed_last (p : str) (x : ascii) :
  rstrip (p ++ [x]) = p ++ [x] -> isspace x = false.
Proof.
  unfold rstrip. rewrite rev_app_distr. simpl.
  destruct (isspace x); [|reflexivity].
  intros H. apply (f_equal (@List.length ascii)) in H.
  rewrite length_rev, length_app in H. simpl in H.
  pose proof (dropWhile_length isspace (rev p)) as L.
  rewrite length_rev in L. lia.
Qed.

Lemma strip_rstrip_fixed (s : str) : rstrip (strip s) = strip s.
Proof.
  unfold strip. rewrite lstrip_rstrip. apply rstrip_idem.
Qed.



End Whitespace.

(** ** Step 1 of the normaliser *)

Section Cleanup.

Lemma contains_false_cut (sub s : str) :
  contains sub s = false -> cut sub s = None.
Proof. unfold contains. destruct (cut sub s); [discriminate | reflexivity]. Qed.

Lemma replace_absent (old new s : str) :
  old <> [] -> contains old s = false -> replace old new s = s.
Proof.
  intros N H. rewrite replace_eq by exact N.
  rewrite (contains_false_cut _ _ H). reflexivity.
Qed.

Lemma not_In_contains (x : ascii) (s : str) :
  ~ In x s -> contains [x] s = false.
Proof.
  intros H. destruct (contains [x] s) eqn:E; [|reflexivity].
  apply contains_true in E. destruct E as (p & q & ->).
  exfalso. apply H. apply in_or_app. right. left. reflexivity.
Qed.

Lemma In_contains (x : ascii) (s : str) :
  In x s -> contains [x] s = true.
Proof.
  intros H. apply in_split in H. destruct H as (p & q & ->).
  apply contains_true. exists p, q. reflexivity.
Qed.

(** The text before the separator found by [cut] holds no separator
    character when the separator is one character. *)
Lemma cut_char_before (x : ascii) (s a b : str) :
  cut [x] s = Some (a, b) -> ~ In x a.
Proof.
  intros C H. apply in_split in H. destruct H as (p & q & ->).
  pose proof (cut_Some _ _ _ _ C) as E.
  assert (L := cut_first _ _ _ _ C p (q ++ [x] ++ b)).
  rewrite <- app_assoc in E. simpl in E.
  specialize (L E). rewrite length_app in L. simpl in L. lia.
Qed.

(** Every occurrence of [old] is gone after [replace] when [new] does not
    bring the character back. *)
Lemma replace_char_gone (x : ascii) (new s : str) :
  ~ In x new -> ~ In x (replace [x] new s).
Proof.
  intros N. remember (List.length s) as n eqn:L.
  revert s L. induction n as [n IH] using lt_wf_ind. intros s L.
  rewrite replace_eq by discriminate.
  destruct (cut [x] s) as [[a b]|] eqn:C.
  - intros H. apply in_app_or in H. destruct H as [H|H].
    + exact (cut_char_before _ _ _ _ C H).
    + apply in_app_or in H. destruct H as [H|H]; [exact (N H)|].
      revert H. apply (IH (List.length b)); [|reflexivity].
      subst n. eapply cut_shorter; eauto. discriminate.
  - intros H. apply In_contains in H. unfold contains in H.
    rewrite C in H. discriminate.
Qed.

Lemma match_ws_RICH_Some (s r : str) :
  match_ws_RICH s = Some r ->
  exists w ws, s = w :: ws ++ py "RICH" ++ r /\ isspace w = true /\
               forallb isspace ws = true /\ at_end r = true.
Proof.
  unfold match_ws_RICH. destruct s as [|c s]; [discriminate|].
  destruct (isspace c) eqn:E; [|discriminate].
  destruct (strip_prefix (py "RICH") (dropWhile isspace s)) as [t|] eqn:P;
    [|discriminate].
  destruct (at_end t) eqn:A; [|discriminate].
  intros H; inversion H; subst t. apply strip_prefix_Some in P.
  exists c, (takeWhile isspace s). repeat split; auto.
  - f_equal. rewrite <- P. clear. induction s as [|x s IH]; simpl; auto.
    destruct (isspace x); simpl; [f_equal; exact IH | reflexivity].
  - clear. induction s as [|x s IH]; simpl; auto.
    destruct (isspace x) eqn:E; simpl; [rewrite E; exact IH | reflexivity].
Qed.

Lemma re_sub_RICH_In (s : str) (x : ascii) :
  In x (re_sub_RICH s) -> In x s.
Proof.
  induction s as [|c s IH]; [simpl; tauto|].
  cbn [re_sub_RICH]. destruct (match_ws_RICH (c :: s)) as [r|] eqn:E.
  - apply match_ws_RICH_Some in E. destruct E as (w & ws & -> & _).
    intros H. right. apply in_or_app. right. apply in_or_app. right. exact H.
  - simpl. intros [H|H]; [left; exact H | right; exact (IH H)].
Qed.

(** The pattern matches nowhere in a string that does not end in
    whitespace or in whitespace followed by [RICH]. *)
Lemma re_sub_RICH_fixed (s : str) :
  rstrip s = s ->
  (forall p w, isspace w = true -> s <> p ++ w :: py "RICH") ->
  re_sub_RICH s = s.
Proof.
  intros R H.
  assert (G : forall t p, s = p ++ t -> re_sub_RICH t = t).
  { induction t as [|c t IH]; intros p E; [reflexivity|].
    cbn [re_sub_RICH]. destruct (match_ws_RICH (c :: t)) as [r|] eqn:M.
    - exfalso. apply match_ws_RICH_Some in M.
      destruct M as (w & ws & Et & W & WS & A).
      rewrite Et in E. destruct r as [|n [|? ?]]; try discriminate.
      + (* the match ends the string *)
        destruct (rev ws) as [|l rws] eqn:Rw.
        * apply (f_equal (@rev ascii)) in Rw. rewrite rev_involutive in Rw.
          simpl in Rw. subst ws. apply (H p w W). rewrite E.
          simpl. reflexivity.
        * apply (f_equal (@rev ascii)) in Rw. rewrite rev_involutive in Rw.
          simpl in Rw. subst ws.
          apply (H (p ++ w :: rev rws) l).
          -- rewrite forallb_app in WS. apply andb_true_iff in WS.
             destruct WS as [_ WS]. simpl in WS.
             rewrite andb_true_r in WS. exact WS.
          -- rewrite E. repeat (rewrite <- app_assoc; simpl). reflexivity.
      + (* the match is followed by a final newline *)
        simpl in A. apply Ascii.eqb_eq in A. subst n.
        assert (S : isspace "010"%char = false).
        { apply (rstrip_fixed_last (p ++ w :: ws ++ py "RICH")).
          repeat (rewrite <- app_assoc; simpl). simpl in E.
          rewrite <- E. exact R. }
        vm_compute in S. discriminate.
    - f_equal. apply (IH (p ++ [c])). rewrite <- app_assoc. exact E. }
  apply (G s []). reflexivity.
Qed.

End Cleanup.

(** ** Claims about step 1 *)

Section CleanupClaims.

Lemma ends_ws_RICH_false (s : str) :
  ends_ws_RICH s = false ->
  forall p w, isspace w = true -> s <> p ++ w :: py "RICH".
Proof.
  unfold ends_ws_RICH. intros H p w W E. subst s.
  rewrite rev_app_distr in H. simpl in H. rewrite W in H. discriminate.
Qed.

Lemma cleanup_no_slash (s : str) : ~ In "/"%char (cleanup s).
Proof.
  unfold cleanup. intros H. apply strip_In in H. apply re_sub_RICH_In in H.
  revert H. apply replace_char_gone. vm_compute. intuition discriminate.
Qed.

(** C5, as stated, fails: cleaning [MAIN RICH RICH] gives [MAIN RICH], and
    cleaning that gives [MAIN]. *)
Lemma cleanup_not_idempotent :
  cleanup (py "MAIN RICH RICH") = py "MAIN RICH" /\
  cleanup (cleanup (py "MAIN RICH RICH")) = py "MAIN" /\
  cleanup (cleanup (py "MAIN RICH RICH")) <> cleanup (py "MAIN RICH RICH").
Proof. vm_compute. repeat split. discriminate. Qed.

(** The same happens when deleting [-BLK] brings a new [-BLK] together. *)
Example cleanup_not_idempotent_BLK :
  cleanup (py "-B-BLKLK") = py "-BLK" /\ cleanup (cleanup (py "-B-BLKLK")) = [].
Proof. vm_compute. split; reflexivity. Qed.

(** C5 (amended): the step-1 cleanup applied to its own result changes
    nothing when that result holds no [-BLK] and does not end in a
    whitespace character followed by [RICH]. *)
Theorem cleanup_idempotent_when_settled (s : str) :
  contains (py "-BLK") (cleanup s) = false ->
  ends_ws_RICH (cleanup s) = false ->
  cleanup (cleanup s) = cleanup s.
Proof.
  intros B R. unfold cleanup at 1.
  rewrite (replace_absent (py "-BLK") [] (cleanup s))
    by (discriminate || exact B).
  rewrite (replace_absent (py "/") (py " and ") (cleanup s));
    [| discriminate | apply (not_In_contains "/"%char), cleanup_no_slash].
  rewrite re_sub_RICH_fixed.
  - unfold cleanup. apply strip_idem.
  - unfold cleanup. apply strip_rstrip_fixed.
  - apply ends_ws_RICH_false. exact R.
Qed.

Lemma cleanup_idempotent_when_settled_witness :
  cleanup (cleanup (py "123-BLK MAIN ST RICH"))
  = cleanup (py "123-BLK MAIN ST RICH").
Proof.
  apply (cleanup_idempotent_when_settled (py "123-BLK MAIN ST RICH"));
    vm_compute; reflexivity.
Defined.

Example cleanup_example :
  cleanup (py "123-BLK MAIN ST RICH") = py "123 MAIN ST".
Proof. vm_compute. reflexivity. Qed.

End CleanupClaims.

(** ** The address handed to the forward geocoder *)

Section Fragment.

Lemma index_split_0 (sep s : str) :
  sep <> [] ->
  index (split sep s) 0 =
  inr (match cut sep s with Some (a, _) => a | None => s end).
Proof.
  intros N. rewrite split_eq by exact N.
  destruct (cut sep s) as [[a b]|]; reflexivity.
Qed.

Lemma index_split_1 (sep s a b : str) :
  sep <> [] -> cut sep s = Some (a, b) ->
  index (split sep s) 1 =
  inr (match cut sep b with Some (x, _) => x | None => b end).
Proof.
  intros N C. rewrite split_eq by exact N. rewrite C.
  change (index (a :: split sep b) 1) with (index (split sep b) 0).
  apply index_split_0. exact N.
Qed.

Lemma main_street_of_cases (c : str) :
  (exists m, main_street_of c = inr m) \/ main_street_of c = inl IndexError.
Proof.
  unfold main_street_of, index.
  destruct (nth_error (split (py "@") c) 1); [|right; reflexivity].
  destruct (nth_error (split (py "BETWEEN") s) 0);
    [left; eauto | right; reflexivity].
Qed.

(** No exception leaves lines 145-158. *)
Lemma address_to_geocode_total (c : str) :
  exists a, address_to_geocode c = inr a.
Proof.
  unfold address_to_geocode.
  destruct (contains (py " and ") c).
  - rewrite index_split_0 by discriminate. eauto.
  - destruct (contains (py "RICH: @") c && contains (py "BETWEEN") c); [|eauto].
    destruct (main_street_of_cases c) as [[m ->]| ->]; eauto.
Qed.







Lemma match_ws_dir_Some (s r : str) :
  match_ws_dir s = Some r ->
  exists w d, s = w :: d ++ r /\ isspace w = true /\
              (d = py "NB" \/ d = py "SB") /\ at_end r = true.
Proof.
  unfold match_ws_dir. destruct s as [|c s]; [discriminate|].
  destruct (isspace c) eqn:E; [|discriminate].
  destruct (strip_prefix (py "NB") s) as [t|] eqn:P.
  - destruct (at_end t) eqn:A; [|discriminate].
    intros H; inversion H; subst t. apply strip_prefix_Some in P.
    exists c, (py "NB"). rewrite P. auto.
  - destruct (strip_prefix (py "SB") s) as [t|] eqn:P'; [|discriminate].
    destruct (at_end t) eqn:A; [|discriminate].
    intros H; inversion H; subst t. apply strip_prefix_Some in P'.
    exists c, (py "SB"). rewrite P'. auto.
Qed.

Lemma match_ws_dir_here (w : ascii) (d : str) :
  isspace w = true -> d = py "NB" \/ d = py "SB" ->
  match_ws_dir (w :: d) = Some [].
Proof.
  intros W [-> | ->]; unfold match_ws_dir; rewrite W; reflexivity.
Qed.

(** What [re.sub(r'\s(NB|SB)$', '', m)] does to a stripped string: one
    trailing direction token and the whitespace character before it are
    cut off, or the string is left alone when it has no such ending. *)
Lemma re_sub_dir_spec (m : str) :
  rstrip m = m ->
  (exists w d, isspace w = true /\ (d = py "NB" \/ d = py "SB") /\
               m = re_sub_dir m ++ w :: d)
  \/ (re_sub_dir m = m /\
      forall p w d, isspace w = true -> d = py "NB" \/ d = py "SB" ->
                    m <> p ++ w :: d).
Proof.
  intros R.
  assert (G : forall t p, m = p ++ t ->
    (exists w d, isspace w = true /\ (d = py "NB" \/ d = py "SB") /\
                 t = re_sub_dir t ++ w :: d)
    \/ (re_sub_dir t = t /\
        forall q w d, isspace w = true -> d = py "NB" \/ d = py "SB" ->
                      t <> q ++ w :: d)).
  { induction t as [|c t IH]; intros p E.
    - right. split; [reflexivity|]. intros [|? ?] w d _ _; discriminate.
    - cbn [re_sub_dir]. destruct (match_ws_dir (c :: t)) as [r|] eqn:M.
      + apply match_ws_dir_Some in M. destruct M as (w & d & Et & W & D & A).
        destruct r as [|n [|? ?]]; try discriminate.
        * left. exists w, d. rewrite app_nil_r in Et. auto.
        * exfalso. simpl in A. apply Ascii.eqb_eq in A. subst n.
          assert (S : isspace "010"%char = false).
          { apply (rstrip_fixed_last (p ++ w :: d)).
            rewrite <- app_assoc. simpl. rewrite Et in E. rewrite <- E.
            exact R. }
          vm_compute in S. discriminate.
      + destruct (IH (p ++ [c])) as [(w & d & W & D & Et)|[Et F]].
        * rewrite <- app_assoc. exact E.
        * left. exists w, d. repeat split; auto. simpl. f_equal. exact Et.
        * right. split; [f_equal; exact Et|].
          intros [|x q] w d W D Eq.
          -- simpl in Eq. inversion Eq; subst.
             rewrite (match_ws_dir_here w d W D) in M. discriminate.
          -- simpl in Eq. inversion Eq; subst. eapply F; eauto. }
  apply (G m []). reflexivity.
Qed.

End Fragment.

(** ** Exceptions of the decoder *)

Section DecoderExceptions.

Lemma float_of_str_raises (p : str) (e : exn) :
  float_of_str p = inl e -> e = ValueError.
Proof.
  unfold float_of_str. destruct (sign (strip p)) as [neg t].
  destruct (_ || _); [discriminate|].
  destruct (str_eqb _ _); [discriminate|].
  destruct (floatnumber neg t); [discriminate|].
  intros H; inversion H; reflexivity.
Qed.

Lemma floats_of_raises (ps : list str) (e : exn) :
  floats_of ps = inl e -> e = ValueError.
Proof.
  induction ps as [|p ps IH]; simpl; [discriminate|].
  destruct (float_of_str p) as [e'|x] eqn:F.
  - intros H; inversion H; subst. eapply float_of_str_raises; eauto.
  - destruct (floats_of ps) as [e'|xs]; [|discriminate].
    intros H; inversion H; subst. apply IH. reflexivity.
Qed.

Lemma index_raises (A : Type) (l : list A) (i : nat) (e : exn) :
  index l i = inl e -> e = IndexError.
Proof.
  unfold index. destruct (nth_error l i); [discriminate|].
  intros H; inversion H; reflexivity.
Qed.

(** [dms_to_dd] raises nothing but what the handler of line 132 catches. *)
Lemma dms_to_dd_raises (dms : str) (e : exn) :
  dms_to_dd dms = inl e -> ValueError_or_IndexError e = true.
Proof.
  unfold dms_to_dd.
  destruct (floats_of (split (py ":") dms)) as [e'|parts] eqn:F.
  - intros H; inversion H; subst.
    rewrite (floats_of_raises _ _ F). reflexivity.
  - destruct (index parts 0) as [e0|p0] eqn:I0.
    { intros H; inversion H; subst.
      rewrite (index_raises _ _ _ _ I0). reflexivity. }
    destruct (index parts 1) as [e1|p1] eqn:I1.
    { intros H; inversion H; subst.
      rewrite (index_raises _ _ _ _ I1). reflexivity. }
    destruct (index parts 2) as [e2|p2] eqn:I2.
    { intros H; inversion H; subst.
      rewrite (index_raises _ _ _ _ I2). reflexivity. }
    discriminate.
Qed.

End DecoderExceptions.

(** ** The pipeline *)

Section Pipeline.

Variable g : Nominatim.

Lemma get_nearest_intersection_run (la lo : float) (s : state) :
  get_nearest_intersection (Some la) (Some lo) g s =
  (inr (reverse_label g (trace s) la lo), emit (EvReverse la lo) s).
Proof.
  unfold get_nearest_intersection, try_except, bind, call_reverse,
    reverse_label, of_reply.
  destruct (reverse g (trace s) la lo) as [e|[l|]]; try reflexivity.
  destruct (raw_address l); reflexivity.
Qed.

(** Coordinates that are [None] end the call at once: the result is the
    empty string and the state, with its events, is untouched. *)
Lemma get_nearest_intersection_None (la lo : option float) (s : state) :
  la = None \/ lo = None ->
  get_nearest_intersection la lo g s = (inr [], s).
Proof.
  intros [-> | ->]; [|destruct la]; reflexivity.
Qed.

Lemma reverse_step_run (la lo : float) (s : state) :
  lat (cur s) = Some (Some la) -> lng (cur s) = Some (Some lo) ->
  reverse_step g s =
  (inr tt, {| cur := labelled (reverse_label g (trace s) la lo) (cur s);
              incidents := incidents s;
              trace := trace s ++ [EvReverse la lo] |}).
Proof.
  intros A B. unfold reverse_step, bind, get_incident.
  rewrite A, B. cbn [coordinate]. rewrite get_nearest_intersection_run.
  unfold labelled. destruct (truthy _); reflexivity.
Qed.

Lemma ll_branch_run (c : str) (s : state) :
  ll_branch g c s = (inr tt, after_ll_branch g c s).
Proof.
  unfold ll_branch, after_ll_branch, decode.
  destruct (re_search_LL c) as [[g1 g2]|]; [|reflexivity].
  unfold bind at 1. unfold try_except, bind at 1, lift.
  destruct (dms_to_dd (strip g1)) as [e1|x] eqn:D1.
  - rewrite (dms_to_dd_raises _ _ D1). reflexivity.
  - unfold bind at 1, update_incident at 1. unfold bind at 1.
    destruct (dms_to_dd (strip g2)) as [e2|y] eqn:D2.
    + rewrite (dms_to_dd_raises _ _ D2). reflexivity.
    + unfold bind at 1, update_incident at 1.
      rewrite (reverse_step_run y x) by reflexivity. reflexivity.
Qed.

Lemma nominatim_branch_run (c a : str) (s : state) :
  address_to_geocode c = inr a ->
  nominatim_branch g c s = (inr tt, after_nominatim_branch g a s).
Proof.
  intros A. unfold nominatim_branch, after_nominatim_branch.
  rewrite A. unfold bind at 1, lift. unfold bind at 1.
  unfold try_except, bind at 1, call_geocode, of_reply.
  destruct (geocode g (trace s) (a ++ py ", Richmond, VA")) as [e|[l|]];
    try reflexivity.
  unfold bind at 1, update_incident at 1.
  unfold bind at 1, update_incident at 1.
  rewrite (reverse_step_run (latitude l) (longitude l)) by reflexivity.
  reflexivity.
Qed.

(** The loop body never raises, and appends exactly one incident for a row
    of at least seven cells and none for a shorter row. *)
Lemma geocoding_step_run (c : str) (s : state) :
  geocoding_step g c s =
  (inr tt,
   if startswith (py "LL(") c then after_ll_branch g c s
   else match address_to_geocode c with
        | inr a => after_nominatim_branch g a s
        | inl _ => s
        end).
Proof.
  unfold geocoding_step. destruct (startswith (py "LL(") c).
  - apply ll_branch_run.
  - destruct (address_to_geocode_total c) as [a A]. rewrite A.
    apply nominatim_branch_run. exact A.
Qed.

End Pipeline.

(** ** Claims about the pipeline *)

Section PipelineClaims.

(** C1, as stated, fails: the cleaned string [LL(abc] starts with [LL(]
    and does not decode, and the run on such a row sends no forward query
    at all, neither for that string nor for any other. *)
Lemma LL_failure_is_not_forward_geocoded :
  startswith (py "LL(") (cleanup (py "LL(abc")) = true /\
  decode (cleanup (py "LL(abc")) = ParseFailure /\
  trace (snd (process_row stub (row_with (py "LL(abc")) start)) = [] /\
  ~ In (EvGeocode (cleanup (py "LL(abc") ++ py ", Richmond, VA"))
       (trace (snd (process_row stub (row_with (py "LL(abc")) start))).
Proof. vm_compute. repeat split. intros []. Qed.

(** C1 (amended): for a cleaned string that starts with [LL(] and does not
    decode, the incident is appended with both coordinates [None] and
    nothing else changed, and no network call is made: forward geocoding
    is skipped. *)
Theorem LL_failure_is_emitted_unresolved (g : Nominatim) (c : str) (s : state) :
  startswith (py "LL(") c = true ->
  decode c = ParseFailure ->
  geocoding_step g c s =
  (inr tt, {| cur := set_lng None (set_lat None (cur s));
              incidents := incidents s ++ [set_lng None (set_lat None (cur s))];
              trace := trace s |}).
Proof.
  intros L D. rewrite geocoding_step_run, L. unfold after_ll_branch.
  rewrite D. reflexivity.
Qed.

Lemma LL_failure_is_emitted_unresolved_witness :
  geocoding_step stub (py "LL(abc") start =
  (inr tt, {| cur := set_lng None (set_lat None blank);
              incidents := [set_lng None (set_lat None blank)];
              trace := [] |}).
Proof.
  apply (LL_failure_is_emitted_unresolved stub (py "LL(abc") start);
    vm_compute; reflexivity.
Defined.



(** C8: for a cleaned string that does not start with [LL(] and holds
    [ and ], the text handed to the forward geocoder is the text before the
    first occurrence of [ and ]: the string is that text, [ and ] and a
    rest, no occurrence of [ and ] starts earlier, and the query sent is
    that text followed by the city. *)
Theorem intersection_keeps_text_before_first_and (g : Nominatim) (c : str)
    (s : state) :
  startswith (py "LL(") c = false ->
  contains (py " and ") c = true ->
  exists frag rest,
    address_to_geocode c = inr frag /\
    c = frag ++ py " and " ++ rest /\
    (forall p q, c = p ++ py " and " ++ q -> List.length frag <= List.length p) /\
    exists more,
      trace (snd (geocoding_step g c s)) =
      trace s ++ EvGeocode (frag ++ py ", Richmond, VA") :: more.
Proof.
  intros L A. unfold contains in A.
  destruct (cut (py " and ") c) as [[a b]|] eqn:C; [|discriminate].
  exists a, b.
  assert (Ea : address_to_geocode c = inr a).
  { unfold address_to_geocode, contains. rewrite C.
    rewrite index_split_0 by discriminate. rewrite C. reflexivity. }
  split; [exact Ea|]. split; [exact (cut_Some _ _ _ _ C)|].
  split; [exact (cut_first _ _ _ _ C)|].
  rewrite geocoding_step_run, L, Ea. cbn [snd].
  unfold after_nominatim_branch.
  destruct (geocode g (trace s) (a ++ py ", Richmond, VA")) as [e|[l|]];
    cbn [trace]; rewrite <- !app_assoc; cbn [app]; eexists; reflexivity.
Qed.

Lemma intersection_keeps_text_before_first_and_witness :
  exists frag rest,
    address_to_geocode (cleanup (py "MAIN ST/BROAD ST")) = inr frag /\
    cleanup (py "MAIN ST/BROAD ST") = frag ++ py " and " ++ rest /\
    (forall p q, cleanup (py "MAIN ST/BROAD ST") = p ++ py " and " ++ q ->
                 List.length frag <= List.length p) /\
    exists more,
      trace (snd (geocoding_step stub (cleanup (py "MAIN ST/BROAD ST")) start)) =
      trace start ++ EvGeocode (frag ++ py ", Richmond, VA") :: more.
Proof.
  apply (intersection_keeps_text_before_first_and stub
           (cleanup (py "MAIN ST/BROAD ST")) start); vm_compute; reflexivity.
Defined.

(** The example of the specification: the cross street is dropped. *)
Example intersection_example :
  address_to_geocode (cleanup (py "MAIN ST/BROAD ST")) = inr (py "MAIN ST").
Proof. vm_compute. reflexivity. Qed.

Lemma process_row_run (g : Nominatim) (cells : list str) (s : state) :
  exists s', process_row g cells s = (inr tt, s') /\
    if 7 <=? List.length cells
    then exists i, incidents s' = incidents s ++ [i] /\ emitted g cells i
    else s' = s.
Proof.
  unfold process_row.
  destruct (7 <=? List.length cells); [|exists s; split; reflexivity].
  unfold bind at 1, new_incident, update_incident. unfold bind at 1, get_incident.
  cbn [cur]. rewrite geocoding_step_run. eexists. split; [reflexivity|].
  unfold emitted, all_steps_fail.
  change (street (incident_of_cells cells)) with (cell cells 5).
  destruct (startswith (py "LL(") (cleanup (cell cells 5))).
  - unfold after_ll_branch.
    destruct (decode (cleanup (cell cells 5))) as [x y|]; cbn [incidents cur];
      eexists; (split; [reflexivity|]).
    + split; [|split].
      * unfold labelled. destruct (truthy _); repeat split.
      * left. exists x, y. unfold labelled. destruct (truthy _); split; reflexivity.
      * discriminate.
    + split; [repeat split|]. split; [right|intros _]; repeat split.
  - destruct (address_to_geocode_total (cleanup (cell cells 5))) as [a ->].
    unfold after_nominatim_branch.
    destruct (geocode g _ _) as [e|[l|]] eqn:G; cbn [incidents cur];
      eexists; (split; [reflexivity|]).
    + split; [repeat split|]. split; [right|intros _]; repeat split.
    + split; [|split].
      * unfold labelled. destruct (truthy _); repeat split.
      * left. exists (longitude l), (latitude l). unfold labelled.
        destruct (truthy _); split; reflexivity.
      * intros F. exfalso. eapply F. exact G.
    + split; [repeat split|]. split; [right|intros _]; repeat split.
Qed.

Lemma for_rows_run (g : Nominatim) (rows : list (list str)) (s : state) :
  exists l s', for_rows g rows s = (inr tt, s') /\
    incidents s' = incidents s ++ l /\
    Forall2 (emitted g)
      (filter (fun cells => 7 <=? List.length cells) rows) l.
Proof.
  revert s. induction rows as [|cells rows IH]; intros s.
  - exists [], s. rewrite app_nil_r. repeat split. constructor.
  - cbn [for_rows filter]. unfold bind.
    destruct (process_row_run g cells s) as (s1 & -> & H).
    destruct (IH s1) as (l & s2 & -> & I & F).
    destruct (7 <=? List.length cells).
    + destruct H as (i & Hi & E). exists (i :: l), s2.
      split; [reflexivity|]. split.
      * rewrite I, Hi, <- app_assoc. reflexivity.
      * constructor; assumption.
    + subst s1. exists l, s2. auto.
Qed.


(** A run in which everything fails: the client is down and the one
    [LL(...)] row does not decode. *)
Example all_failures_run :
  exists i1 i2 s',
    scrape_incidents down
      [[]; row_with (py "LL(abc"); [py "short"]; row_with (py "123 MAIN ST")]
      start = (inr [i1; i2], s') /\
    street i1 = py "LL(abc" /\ unresolved i1 /\
    street i2 = py "123 MAIN ST" /\ unresolved i2.
Proof. do 3 eexists. vm_compute. repeat split. Qed.

End PipelineClaims.

(** ** Claims about the between clause and the intersection label *)

Section Heuristics.



Lemma between_branch_address (c : str) :
  between_branch c = true ->
  address_to_geocode c =
  match main_street_of c with
  | inr m => inr (re_sub_dir m)
  | inl _ => inr c
  end.
Proof.
  unfold between_branch, address_to_geocode. intros H.
  apply andb_true_iff in H. destruct H as [H B].
  apply andb_true_iff in H. destruct H as [A R].
  apply negb_true_iff in A. rewrite A, R, B. cbn [andb].
  destruct (main_street_of_cases c) as [[m ->]| ->]; reflexivity.
Qed.



(** The example of the specification: the direction token that trails the
    whole string is behind [BETWEEN] and plays no part. *)
Example between_example :
  address_to_geocode (cleanup (py "RICH: @BROAD ST BETWEEN 1ST ST & 2ND ST NB"))
  = inr (py "BROAD ST").
Proof. vm_compute. reflexivity. Qed.

(** The code's label is the label of the specification. *)
Lemma label_of_address_spec (a : address) :
  label_of_address a = spec_label (road_candidate a) (present a (py "suburb")).
Proof.
  unfold label_of_address, road_candidate, present, or_else, dict_get_default,
    spec_label.
  destruct (dict_get a (py "road")) as [[|r0 r]|];
  destruct (dict_get a (py "street")) as [[|t0 t]|];
  destruct (dict_get a (py "pedestrian")) as [[|p0 p]|];
  destruct (dict_get a (py "suburb")) as [[|s0 sb]|];
  cbn [truthy andb];
  repeat match goal with
         | |- context [if ?b then _ else _] => destruct b
         end; reflexivity.
Qed.

(** C6: [get_nearest_intersection] with a coordinate that is [None]
    returns the empty string and touches nothing, so no call is made;
    otherwise it makes one reverse call and, from an answer with an
    address, returns the label of the specification: the road candidate
    (the first present of [road], [street], [pedestrian]) verbatim when it
    holds [&] or [/], else road and suburb joined by a comma, else the one
    of the two that is present, else the empty string. *)
Theorem intersection_label_heuristic (g : Nominatim) (s : state)
    (la lo : float) (x : option float) :
  get_nearest_intersection None x g s = (inr [], s) /\
  get_nearest_intersection x None g s = (inr [], s) /\
  get_nearest_intersection (Some la) (Some lo) g s =
  (inr match reverse g (trace s) la lo with
       | Returns (Some l) =>
           match raw_address l with
           | Some a => spec_label (road_candidate a) (present a (py "suburb"))
           | None => []
           end
       | _ => []
       end,
   emit (EvReverse la lo) s).
Proof.
  split; [|split].
  - apply get_nearest_intersection_None. left. reflexivity.
  - apply get_nearest_intersection_None. right. reflexivity.
  - rewrite get_nearest_intersection_run. unfold reverse_label.
    destruct (reverse g (trace s) la lo) as [e|[l|]]; try reflexivity.
    destruct (raw_address l); [|reflexivity].
    rewrite label_of_address_spec. reflexivity.
Qed.

(** The examples of the specification. *)
Example label_examples :
  label_of_address [(py "road", py "Main St & Broad St");
                    (py "suburb", py "Downtown")] = py "Main St & Broad St" /\
  label_of_address [(py "road", py "Main St"); (py "suburb", py "Downtown")]
  = py "Main St, Downtown" /\
  label_of_address [(py "city", py "Richmond")] = [].
Proof. vm_compute. repeat split. Qed.

End Heuristics.

(** ** The strings that [float] accepts *)

Section FloatStrings.


















End FloatStrings.

(** ** The coordinate decoder *)

Section Decoder.



Lemma takeWhile_stop (x : ascii) (a r : str) :
  ~ In x a -> takeWhile (not_char x) (a ++ x :: r) = a.
Proof.
  induction a as [|c a IH]; intros N; simpl.
  - unfold not_char. rewrite Ascii.eqb_refl. reflexivity.
  - unfold not_char at 1. destruct (Ascii.eqb c x) eqn:E.
    + apply Ascii.eqb_eq in E. subst c. exfalso. apply N. left. reflexivity.
    + simpl. f_equal. apply IH. intros I. apply N. right. exact I.
Qed.

Lemma dropWhile_stop (x : ascii) (a r : str) :
  ~ In x a -> dropWhile (not_char x) (a ++ x :: r) = x :: r.
Proof.
  induction a as [|c a IH]; intros N; simpl.
  - unfold not_char. rewrite Ascii.eqb_refl. reflexivity.
  - unfold not_char at 1. destruct (Ascii.eqb c x) eqn:E.
    + apply Ascii.eqb_eq in E. subst c. exfalso. apply N. left. reflexivity.
    + simpl. apply IH. intros I. apply N. right. exact I.
Qed.







End Decoder.

(** ** The patterns and the float reader on examples *)

Section ModelChecks.

Lemma takeWhile_dropWhile (f : ascii -> bool) (s : str) :
  s = takeWhile f s ++ dropWhile f s.
Proof.
  induction s as [|c s IH]; simpl; [reflexivity|].
  destruct (f c); simpl; [f_equal; exact IH | reflexivity].
Qed.

Lemma takeWhile_all (f : ascii -> bool) (s : str) (x : ascii) :
  In x (takeWhile f s) -> f x = true.
Proof.
  induction s as [|c s IH]; simpl; [intros []|].
  destruct (f c) eqn:E; [|intros []].
  intros [<-|I]; [exact E | exact (IH I)].
Qed.

Lemma dropWhile_head (f : ascii -> bool) (s r : str) (c : ascii) :
  dropWhile f s = c :: r -> f c = false.
Proof.
  induction s as [|y s IH]; simpl; [discriminate|].
  destruct (f y) eqn:E; [exact IH|].
  intros H; inversion H; subst. exact E.
Qed.

Lemma not_char_false (x c : ascii) : not_char x c = false -> c = x.
Proof.
  unfold not_char. intros H. apply negb_false_iff in H.
  apply Ascii.eqb_eq. exact H.
Qed.

Lemma not_char_all (x : ascii) (s : str) :
  (forall y, In y s -> not_char x y = true) -> ~ In x s.
Proof.
  intros H I. specialize (H x I). unfold not_char in H.
  rewrite Ascii.eqb_refl in H. discriminate.
Qed.

(** The envelope pattern matches at the head of a string exactly when the
    string is [LL(], a non-empty group without comma, a comma, a non-empty
    group without closing parenthesis, a closing parenthesis and a rest. *)
Lemma match_LL_Some (s g1 g2 : str) :
  match_LL s = Some (g1, g2) <->
  exists rest,
    s = py "LL(" ++ g1 ++ ","%char :: g2 ++ ")"%char :: rest /\
    g1 <> [] /\ ~ In ","%char g1 /\ g2 <> [] /\ ~ In ")"%char g2.
Proof.
  split.
  - unfold match_LL.
    destruct (strip_prefix (py "LL(") s) as [r|] eqn:P; [|discriminate].
    apply strip_prefix_Some in P. cbv zeta.
    pose proof (takeWhile_dropWhile (not_char ","%char) r) as E1.
    pose proof (takeWhile_all (not_char ","%char) r) as A1.
    destruct (takeWhile (not_char ","%char) r) as [|a1 t1]; [discriminate|].
    destruct (dropWhile (not_char ","%char) r) as [|c1 r'] eqn:D1;
      [discriminate|].
    pose proof (takeWhile_dropWhile (not_char ")"%char) r') as E2.
    pose proof (takeWhile_all (not_char ")"%char) r') as A2.
    destruct (takeWhile (not_char ")"%char) r') as [|a2 t2]; [discriminate|].
    destruct (dropWhile (not_char ")"%char) r') as [|c2 r''] eqn:D2;
      [discriminate|].
    intros H; inversion H; subst g1 g2.
    apply dropWhile_head, not_char_false in D1, D2. subst c1 c2.
    exists r''. split; [|repeat split].
    + rewrite P, E1, E2. repeat (rewrite <- app_assoc; cbn [app]). reflexivity.
    + discriminate.
    + apply not_char_all. exact A1.
    + discriminate.
    + apply not_char_all. exact A2.
  - intros (rest & -> & N1 & C1 & N2 & C2).
    unfold match_LL. rewrite strip_prefix_app.
    cbv zeta. rewrite (takeWhile_stop _ _ _ C1), (dropWhile_stop _ _ _ C1).
    rewrite (takeWhile_stop _ _ _ C2), (dropWhile_stop _ _ _ C2).
    destruct g1; [congruence|]. destruct g2; [congruence|]. reflexivity.
Qed.

(** [float] on a few literals, against the binary64 values they denote
    (mantissa and binary exponent), and on strings it refuses. *)
Example float_of_str_examples :
  float_of_str (py "0.1") = inr (S754_finite false 7205759403792794 (-56)) /\
  float_of_str (py " -77 ") = inr (S754_finite true 5418393301680128 (-46)) /\
  float_of_str (py "1_0.5e+1") = inr (S754_finite false 7388718138654720 (-46)) /\
  float_of_str (py "1e23") = inr (S754_finite false 5960464477539062 24) /\
  float_of_str (py "4.9e-324") = inr (S754_finite false 1 (-1074)) /\
  float_of_str (py "1e999") = inr (S754_infinity false) /\
  float_of_str (py "-Infinity") = inr (S754_infinity true) /\
  float_of_str (py "NaN") = inr S754_nan /\
  float_of_str (py "-0") = inr (S754_zero true) /\
  float_of_str (py "") = inl ValueError /\
  float_of_str (py "1__0") = inl ValueError /\
  float_of_str (py "1e") = inl ValueError /\
  float_of_str (py "0x10") = inl ValueError /\
  float_of_str (py "1 2") = inl ValueError.
Proof. vm_compute. repeat split. Qed.

(** The patterns on strings with a final newline, where [$] matches before
    it, and the leftmost match of the envelope when the string does not
    open with one. *)
Example regex_examples :
  re_sub_RICH (py "MAIN ST  RICH" ++ ["010"%char]) = py "MAIN ST" ++ ["010"%char] /\
  re_sub_RICH (py "MAIN ST RICHMOND") = py "MAIN ST RICHMOND" /\
  re_sub_dir (py "BROAD ST SB") = py "BROAD ST" /\
  re_sub_dir (py "BROAD ST NB SB") = py "BROAD ST NB" /\
  re_search_LL (py "LL(,LL(1:2:3,4:5:6)") = Some (py "1:2:3", py "4:5:6") /\
  re_search_LL (py "LL(1:2:3,)") = None.
Proof. vm_compute. repeat split. Qed.

End ModelChecks.

(** ** Claims about the coordinate decoder *)

Section DecoderClaims.




(** Malformed groups of each kind leave the coordinates [None]. *)
Example malformed_groups :
  decode (py "LL(1:2,3:4:5)") = ParseFailure /\
  decode (py "LL(1:2:x,3:4:5)") = ParseFailure /\
  decode (py "LL(1:2:3,4:5:6:x)") = ParseFailure /\
  decode (py "LL(1:2:3;4:5:6)") = ParseFailure.
Proof. vm_compute. repeat split. Qed.







(** Half a degree west, written [-0:30:0], comes out as half a degree
    east. *)
Example minus_zero_example :
  exists lon_dd lat_dd q,
    decode (py "LL(-0:30:0,37:32:12)") = DirectCoordinates lon_dd lat_dd /\
    Q_of_float lon_dd = Some q /\ (q == 1 # 2)%Q.
Proof.
  do 3 eexists. split; [vm_compute; reflexivity|].
  split; [vm_compute; reflexivity|]. vm_compute. reflexivity.
Qed.

End DecoderClaims.
(** ** Further properties of the normaliser *)

Section NormaliserProperties.

Lemma lstrip_fixed_head (c : ascii) (r : str) :
  lstrip (c :: r) = c :: r -> isspace c = false.
Proof.
  unfold lstrip. cbn [dropWhile]. destruct (isspace c); [|reflexivity].
  intros H. apply (f_equal (@List.length ascii)) in H.
  pose proof (dropWhile_length isspace r) as L. simpl in H. lia.
Qed.

(** X1: the cleaned street holds no [/], does not start with a whitespace
    character and does not end with one. *)
Theorem cleanup_is_trimmed_and_slash_free (street : str) :
  ~ In "/"%char (cleanup street) /\
  (forall c r, cleanup street = c :: r -> isspace c = false) /\
  (forall r c, cleanup street = r ++ [c] -> isspace c = false).
Proof.
  split; [apply cleanup_no_slash|]. split.
  - intros c r E. apply (lstrip_fixed_head c r). rewrite <- E.
    unfold cleanup, strip. apply lstrip_idem.
  - intros r c E. apply (rstrip_fixed_last r c). rewrite <- E.
    unfold cleanup. apply strip_rstrip_fixed.
Qed.

(** X2: in the branch of the between clause the extraction of line 151
    never raises, so the [IndexError] fallback of lines 154-155 is never
    used: the address is always the extracted main street. *)
Theorem between_fallback_is_never_used (c : str) :
  between_branch c = true ->
  exists m, main_street_of c = inr m /\
            address_to_geocode c = inr (re_sub_dir m).
Proof.
  intros B. rewrite (between_branch_address c B).
  assert (A : contains (py "@") c = true).
  { unfold between_branch in B. apply andb_true_iff in B. destruct B as [B _].
    apply andb_true_iff in B. destruct B as [_ B].
    apply contains_true in B. destruct B as (p & q & ->).
    apply contains_true. exists (p ++ py "RICH: "), q.
    rewrite <- app_assoc. reflexivity. }
  unfold contains in A.
  destruct (cut (py "@") c) as [[a b]|] eqn:C; [|discriminate].
  assert (NE : py "@" <> []) by discriminate.
  unfold main_street_of. rewrite (index_split_1 _ _ _ _ NE C).
  rewrite index_split_0 by discriminate.
  eexists. split; reflexivity.
Qed.

Lemma between_fallback_is_never_used_witness :
  exists m, main_street_of (py "RICH: @A ST BETWEEN B ST") = inr m /\
            address_to_geocode (py "RICH: @A ST BETWEEN B ST")
            = inr (re_sub_dir m).
Proof.
  apply (between_fallback_is_never_used (py "RICH: @A ST BETWEEN B ST")).
  vm_compute. reflexivity.
Defined.

Lemma part_of_refl (a : str) : part_of a a.
Proof. exists [], []. rewrite app_nil_r. reflexivity. Qed.

Lemma part_of_trans (a b c : str) : part_of a b -> part_of b c -> part_of a c.
Proof.
  intros (p & q & ->) (p' & q' & ->). exists (p' ++ p), (q ++ q').
  repeat rewrite <- app_assoc. reflexivity.
Qed.

Lemma split_fuel_part (sep : str) (n : nat) :
  forall s i x, nth_error (split_fuel n sep s) i = Some x -> part_of x s.
Proof.
  induction n as [|n IH]; intros s i x; cbn [split_fuel];
    destruct (cut sep s) as [[a b]|] eqn:C.
  - apply cut_Some in C. subst s. destruct i as [|[|i]]; simpl.
    + intros H; inversion H; subst. exists [], (sep ++ b). reflexivity.
    + intros H; inversion H; subst. exists (a ++ sep), [].
      rewrite app_nil_r, <- app_assoc. reflexivity.
    + destruct i; discriminate.
  - destruct i as [|i]; simpl.
    + intros H; inversion H. apply part_of_refl.
    + destruct i; discriminate.
  - apply cut_Some in C. subst s. destruct i as [|i]; simpl.
    + intros H; inversion H; subst. exists [], (sep ++ b). reflexivity.
    + intros H. apply IH in H. eapply part_of_trans; [exact H|].
      exists (a ++ sep), []. rewrite app_nil_r, <- app_assoc. reflexivity.
  - destruct i as [|i]; simpl.
    + intros H; inversion H. apply part_of_refl.
    + destruct i; discriminate.
Qed.

Lemma index_split_part (sep s x : str) (i : nat) :
  index (split sep s) i = inr x -> part_of x s.
Proof.
  unfold index, split.
  destruct (nth_error (split_fuel (List.length s) sep s) i) eqn:E;
    [|discriminate].
  intros H; inversion H; subst. eapply split_fuel_part; eauto.
Qed.

Lemma lstrip_part (s : str) : part_of (lstrip s) s.
Proof.
  exists (takeWhile isspace s), []. rewrite app_nil_r.
  apply takeWhile_dropWhile.
Qed.

Lemma rstrip_part (s : str) : part_of (rstrip s) s.
Proof.
  exists [], (rev (takeWhile isspace (rev s))). unfold rstrip. cbn [app].
  rewrite <- rev_app_distr, <- takeWhile_dropWhile, rev_involutive.
  reflexivity.
Qed.

Lemma strip_part (s : str) : part_of (strip s) s.
Proof.
  unfold strip. eapply part_of_trans; [apply lstrip_part | apply rstrip_part].
Qed.

Lemma re_sub_dir_part (m : str) : rstrip m = m -> part_of (re_sub_dir m) m.
Proof.
  intros R. destruct (re_sub_dir_spec m R) as [(w & d & _ & _ & E)|[E _]].
  - exists [], (w :: d). exact E.
  - rewrite E. apply part_of_refl.
Qed.

(** X3: the address handed to the forward geocoder is always a contiguous
    part of the cleaned street text: the normaliser cuts, it never adds
    or reorders. *)
Theorem address_is_part_of_cleaned_street (c : str) :
  exists a, address_to_geocode c = inr a /\ part_of a c.
Proof.
  unfold address_to_geocode.
  destruct (contains (py " and ") c).
  - destruct (index (split (py " and ") c) 0) as [e|a] eqn:I.
    + rewrite index_split_0 in I by discriminate. discriminate.
    + exists a. split; [reflexivity|]. eapply index_split_part; eauto.
  - destruct (contains (py "RICH: @") c && contains (py "BETWEEN") c);
      [|exists c; split; [reflexivity | apply part_of_refl]].
    destruct (main_street_of c) as [e|m] eqn:E.
    + destruct (main_street_of_cases c) as [[m' H]|H]; rewrite H in E;
        [discriminate|]. inversion E; subst.
      exists c. split; [reflexivity | apply part_of_refl].
    + exists (re_sub_dir m). split; [reflexivity|].
      unfold main_street_of in E.
      destruct (index (split (py "@") c) 1) as [e1|after] eqn:I1;
        [discriminate|].
      destruct (index (split (py "BETWEEN") after) 0) as [e0|before] eqn:I0;
        [discriminate|].
      inversion E; subst m.
      eapply part_of_trans; [apply re_sub_dir_part, strip_rstrip_fixed|].
      eapply part_of_trans; [apply strip_part|].
      eapply part_of_trans; eapply index_split_part; eauto.
Qed.

(** X4: when the cleaned street holds [ and ], the address kept for the
    forward geocoder holds none. *)
Theorem intersection_address_has_no_and (c : str) :
  contains (py " and ") c = true ->
  exists a, address_to_geocode c = inr a /\ contains (py " and ") a = false.
Proof.
  intros A. unfold address_to_geocode. rewrite A.
  rewrite index_split_0 by discriminate. unfold contains in A.
  destruct (cut (py " and ") c) as [[a b]|] eqn:C; [|discriminate].
  exists a. split; [reflexivity|].
  destruct (contains (py " and ") a) eqn:E; [|reflexivity].
  apply contains_true in E. destruct E as (p & q & E).
  pose proof (cut_Some _ _ _ _ C) as Ec.
  pose proof (cut_first _ _ _ _ C p (q ++ py " and " ++ b)) as L.
  rewrite E in Ec. repeat rewrite <- app_assoc in Ec. specialize (L Ec).
  rewrite E in L. rewrite !length_app in L. simpl in L. lia.
Qed.

Lemma intersection_address_has_no_and_witness :
  exists a, address_to_geocode (py "A ST and B ST and C ST") = inr a /\
            contains (py " and ") a = false.
Proof.
  apply (intersection_address_has_no_and (py "A ST and B ST and C ST")).
  vm_compute. reflexivity.
Defined.

End NormaliserProperties.

(** ** Further properties of the coordinate decoder *)

Section DecoderProperties.


Lemma fneg_involutive (x : float) : fneg (fneg x) = x.
Proof. destruct x as [s|s| |s m e]; try destruct s; reflexivity. Qed.

Lemma flt_zero_fneg (D : float) :
  nonzero_number D = true ->
  flt (fneg D) (float_of_int 0) = negb (flt D (float_of_int 0)).
Proof.
  destruct D as [s|s| |s m e]; try discriminate; intros _; destruct s;
    reflexivity.
Qed.

Lemma fabs_fneg (D : float) : fabs (fneg D) = fabs D.
Proof. destruct D; reflexivity. Qed.

(** X6: for a degrees value that is neither zero nor NaN, negating it
    negates the decimal degrees; minutes and seconds play no part in the
    sign. *)
Theorem negated_degrees_negate_the_result (D M S : float) :
  nonzero_number D = true ->
  dd_of (fneg D) M S = fneg (dd_of D M S).
Proof.
  intros N. unfold dd_of. rewrite (flt_zero_fneg D N), fabs_fneg.
  destruct (flt D (float_of_int 0)); cbn [negb];
    [symmetry; apply fneg_involutive | reflexivity].
Qed.

Lemma negated_degrees_negate_the_result_witness :
  dd_of (fneg (float_of_int 77)) (float_of_int 25) (float_of_int 30)
  = fneg (dd_of (float_of_int 77) (float_of_int 25) (float_of_int 30)).
Proof.
  apply (negated_degrees_negate_the_result (float_of_int 77)).
  vm_compute. reflexivity.
Defined.








End DecoderProperties.

(** ** Further properties of the pipeline *)

Section PipelineProperties.

(** X9: when the forward geocoder finds a location, the incident gets its
    latitude as [lat] and its longitude as [lng] whatever the reverse
    lookup then does, also when it raises; the row makes the forward call,
    one reverse call for (latitude, longitude) and then pauses. *)
Theorem forward_success_sets_coordinates (g : Nominatim) (c a : str)
    (s : state) (l : location) :
  startswith (py "LL(") c = false ->
  address_to_geocode c = inr a ->
  geocode g (trace s) (a ++ py ", Richmond, VA") = Returns (Some l) ->
  exists i s',
    geocoding_step g c s = (inr tt, s') /\
    incidents s' = incidents s ++ [i] /\
    lat i = Some (Some (latitude l)) /\
    lng i = Some (Some (longitude l)) /\
    trace s' = trace s ++ [EvGeocode (a ++ py ", Richmond, VA");
                           EvReverse (latitude l) (longitude l);
                           EvSleep delay].
Proof.
  intros L A G. rewrite geocoding_step_run, L, A.
  unfold after_nominatim_branch. rewrite G.
  eexists. eexists. split; [reflexivity|]. cbn [incidents trace].
  split; [reflexivity|]. unfold labelled.
  repeat rewrite <- app_assoc. destruct (truthy _); repeat split.
Qed.

Lemma forward_success_sets_coordinates_witness :
  exists i s',
    geocoding_step flaky (py "123 MAIN ST") start = (inr tt, s') /\
    incidents s' = incidents start ++ [i] /\
    lat i = Some (Some (latitude stub_location)) /\
    lng i = Some (Some (longitude stub_location)) /\
    trace s' = trace start ++
      [EvGeocode (py "123 MAIN ST" ++ py ", Richmond, VA");
       EvReverse (latitude stub_location) (longitude stub_location);
       EvSleep delay].
Proof.
  apply (forward_success_sets_coordinates flaky (py "123 MAIN ST")
           (py "123 MAIN ST") start stub_location); vm_compute; reflexivity.
Defined.




Lemma has_coordinates_labelled (label : str) (i : incident) :
  has_coordinates (labelled label i) = has_coordinates i.
Proof. unfold labelled. destruct (truthy label); reflexivity. Qed.

Lemma process_row_counts (g : Nominatim) (cells : list str) (s : state) :
  exists s' new li,
    process_row g cells s = (inr tt, s') /\
    trace s' = trace s ++ new /\
    incidents s' = incidents s ++ li /\
    filter is_sleep new
    = repeat (EvSleep delay)
        (List.length (filter forward_row
           (filter (fun cells => 7 <=? List.length cells) [cells]))) /\
    List.length (filter is_geocode new)
    = List.length (filter forward_row
        (filter (fun cells => 7 <=? List.length cells) [cells])) /\
    List.length (filter is_reverse new)
    = List.length (filter has_coordinates li).
Proof.
  unfold process_row. cbn [filter].
  destruct (7 <=? List.length cells).
  - unfold bind at 1, new_incident, update_incident.
    unfold bind at 1, get_incident. cbn [cur].
    rewrite geocoding_step_run. cbn [filter]. unfold forward_row.
    change (street (incident_of_cells cells)) with (cell cells 5).
    destruct (startswith (py "LL(") (cleanup (cell cells 5))); cbn [negb].
    + unfold after_ll_branch. destruct (decode _) as [x y|].
      * eexists. exists [EvReverse y x]. eexists.
        split; [reflexivity|]. split; [reflexivity|]. split; [reflexivity|].
        cbn [filter is_sleep is_geocode is_reverse].
        rewrite has_coordinates_labelled. repeat split.
      * eexists. exists []. eexists.
        split; [reflexivity|]. cbn [trace]. rewrite app_nil_r.
        split; [reflexivity|]. split; [reflexivity|]. repeat split.
    + destruct (address_to_geocode_total (cleanup (cell cells 5))) as [a ->].
      unfold after_nominatim_branch.
      destruct (geocode g _ _) as [e|[l|]]; cbn [trace incidents];
        repeat rewrite <- app_assoc; cbn [app];
        eexists; eexists; eexists;
        (split; [reflexivity|]); (split; [reflexivity|]);
        (split; [reflexivity|]);
        cbn [filter is_sleep is_geocode is_reverse];
        rewrite ?has_coordinates_labelled; repeat split.
  - exists s, [], []. rewrite !app_nil_r. repeat split.
Qed.

Lemma for_rows_counts (g : Nominatim) (rows : list (list str)) (s : state) :
  exists s' new li,
    for_rows g rows s = (inr tt, s') /\
    trace s' = trace s ++ new /\
    incidents s' = incidents s ++ li /\
    filter is_sleep new
    = repeat (EvSleep delay)
        (List.length (filter forward_row
           (filter (fun cells => 7 <=? List.length cells) rows))) /\
    List.length (filter is_geocode new)
    = List.length (filter forward_row
        (filter (fun cells => 7 <=? List.length cells) rows)) /\
    List.length (filter is_reverse new)
    = List.length (filter has_coordinates li).
Proof.
  revert s. induction rows as [|cells rows IH]; intros s.
  - exists s, [], []. rewrite !app_nil_r. repeat split.
  - cbn [for_rows]. unfold bind.
    destruct (process_row_counts g cells s)
      as (s1 & n1 & l1 & -> & T1 & I1 & S1 & G1 & R1).
    destruct (IH s1) as (s2 & n2 & l2 & -> & T2 & I2 & S2 & G2 & R2).
    exists s2, (n1 ++ n2), (l1 ++ l2).
    split; [reflexivity|].
    split; [rewrite T2, T1, app_assoc; reflexivity|].
    split; [rewrite I2, I1, app_assoc; reflexivity|].
    change (cells :: rows) with ([cells] ++ rows).
    rewrite !filter_app, !length_app, repeat_app, S1, S2, G1, G2, R1, R2.
    repeat split.
Qed.

(** X11: over a whole run, the number of forward calls and the number of
    pauses both equal the number of parsed rows whose cleaned location
    text does not start with [LL(], every pause lasts the fixed delay, and
    the number of reverse calls equals the number of returned incidents
    that have coordinates. *)
Theorem network_calls_are_counted (g : Nominatim) (trs : list (list str)) :
  exists l s',
    scrape_incidents g trs start = (inr l, s') /\
    filter is_sleep (trace s')
    = repeat (EvSleep delay)
        (List.length (filter forward_row (parsed_rows trs))) /\
    List.length (filter is_geocode (trace s'))
    = List.length (filter forward_row (parsed_rows trs)) /\
    List.length (filter is_reverse (trace s'))
    = List.length (filter has_coordinates l).
Proof.
  unfold scrape_incidents, bind, parsed_rows.
  destruct (for_rows_counts g (tl trs) start)
    as (s' & new & li & -> & T & I & S & G & R).
  exists (incidents s'), s'. split; [reflexivity|].
  rewrite T, I. cbn [start trace incidents app]. auto.
Qed.

Lemma for_rows_filter (g : Nominatim) (rows : list (list str)) (s : state) :
  for_rows g rows s
  = for_rows g (filter (fun cells => 7 <=? List.length cells) rows) s.
Proof.
  revert s. induction rows as [|cells rows IH]; intros s; [reflexivity|].
  cbn [filter]. destruct (7 <=? List.length cells) eqn:L.
  - cbn [for_rows]. unfold bind.
    destruct (process_row g cells s) as [[e|[]] s1]; [reflexivity | apply IH].
  - cbn [for_rows]. unfold bind at 1, process_row. rewrite L.
    cbn. apply IH.
Qed.

(** X12: the run depends on the parsed rows only: the first [tr] of the
    table, whatever its cells, and every row with fewer than seven cells
    can be taken out without changing the result, the incidents or the
    events. *)
Theorem only_parsed_rows_matter (g : Nominatim) (trs : list (list str))
    (s : state) :
  scrape_incidents g trs s = scrape_incidents g ([] :: parsed_rows trs) s.
Proof.
  unfold scrape_incidents, bind, parsed_rows. cbn [tl].
  rewrite for_rows_filter.
  rewrite (for_rows_filter g (filter _ (tl trs))).
  assert (E : forall (f : list str -> bool) l, filter f (filter f l) = filter f l).
  { intros f l. induction l as [|x l IH]; [reflexivity|].
    cbn [filter]. destruct (f x) eqn:F; [|exact IH].
    cbn [filter]. rewrite F, IH. reflexivity. }
  rewrite E. reflexivity.
Qed.

Lemma reverse_label_independent (g : Nominatim) (t t' : list event)
    (la lo : float) :
  history_independent g -> reverse_label g t la lo = reverse_label g t' la lo.
Proof.
  intros [_ H]. unfold reverse_label. rewrite (H t t' la lo). reflexivity.
Qed.

Lemma process_row_independent (g : Nominatim) (cells : list str) (s : state) :
  history_independent g ->
  incidents (snd (process_row g cells s))
  = incidents s ++ incidents (snd (process_row g cells start)).
Proof.
  intros H. unfold process_row.
  destruct (7 <=? List.length cells);
    [|cbn; rewrite app_nil_r; reflexivity].
  unfold bind at 1 3, new_incident, update_incident.
  unfold bind at 1 2, get_incident. cbn [cur].
  rewrite !geocoding_step_run. cbn [snd].
  destruct (startswith (py "LL(") _).
  - unfold after_ll_branch. cbn [cur trace incidents start].
    destruct (decode _) as [x y|]; cbn [incidents app]; [|reflexivity].
    rewrite (reverse_label_independent g (trace s) [] y x H). reflexivity.
  - destruct (address_to_geocode _) as [e|a]; cbn [incidents start];
      [rewrite app_nil_r; reflexivity|].
    unfold after_nominatim_branch. cbn [cur trace incidents start].
    rewrite (proj1 H (trace s) [] (a ++ py ", Richmond, VA")).
    destruct (geocode g [] (a ++ py ", Richmond, VA")) as [e|[l|]];
      cbn [incidents app]; try reflexivity.
    rewrite (reverse_label_independent g
               (trace s ++ [EvGeocode (a ++ py ", Richmond, VA")])
               ([] ++ [EvGeocode (a ++ py ", Richmond, VA")])
               (latitude l) (longitude l) H).
    reflexivity.
Qed.

Lemma for_rows_independent (g : Nominatim) (rows : list (list str))
    (s : state) :
  history_independent g ->
  incidents (snd (for_rows g rows s))
  = incidents s ++
    flat_map (fun cells => incidents (snd (process_row g cells start))) rows.
Proof.
  intros H. revert s. induction rows as [|cells rows IH]; intros s.
  - cbn. rewrite app_nil_r. reflexivity.
  - cbn [for_rows flat_map]. unfold bind.
    destruct (process_row_run g cells s) as (s1 & E & _).
    pose proof (process_row_independent g cells s H) as P.
    rewrite E in P |- *. cbn [snd] in P.
    rewrite IH, P, app_assoc. reflexivity.
Qed.

(** X13: with a client whose answers do not depend on earlier calls, the
    loop is a map: the returned list is the concatenation, in table order,
    of what each row after the header yields when processed alone, so no
    incident depends on another row. *)
Theorem rows_are_processed_independently (g : Nominatim)
    (trs : list (list str)) :
  history_independent g ->
  fst (scrape_incidents g trs start)
  = inr (flat_map (fun cells => incidents (snd (process_row g cells start)))
           (tl trs)).
Proof.
  intros H. unfold scrape_incidents, bind.
  pose proof (for_rows_independent g (tl trs) start H) as P.
  destruct (for_rows_run g (tl trs) start) as (l & s' & E & _).
  rewrite E in P |- *. cbn [snd fst] in *. rewrite P. reflexivity.
Qed.

Lemma rows_are_processed_independently_witness :
  fst (scrape_incidents stub
         [[]; row_with (py "LL(1:2:3,4:5:6)"); row_with (py "MAIN ST")] start)
  = inr (flat_map (fun cells => incidents (snd (process_row stub cells start)))
           [row_with (py "LL(1:2:3,4:5:6)"); row_with (py "MAIN ST")]).
Proof.
  apply (rows_are_processed_independently stub
           [[]; row_with (py "LL(1:2:3,4:5:6)"); row_with (py "MAIN ST")]).
  split; reflexivity.
Defined.

Lemma present_truthy (a : address) (k v : str) :
  present a k = Some v -> truthy v = true.
Proof.
  unfold present. destruct (dict_get a k) as [x|]; [|discriminate].
  destruct (truthy x) eqn:T; [|discriminate].
  intros E; inversion E; subst. exact T.
Qed.

Lemma road_candidate_truthy (a : address) (v : str) :
  road_candidate a = Some v -> truthy v = true.
Proof.
  unfold road_candidate.
  destruct (present a (py "road")) as [x|] eqn:R.
  - intros E; inversion E; subst. eapply present_truthy; eauto.
  - destruct (present a (py "street")) as [x|] eqn:S.
    + intros E; inversion E; subst. eapply present_truthy; eauto.
    + apply present_truthy.
Qed.

(** X14: the label read off an address is empty exactly when none of
    [road], [street], [pedestrian] and [suburb] is bound to a non-empty
    string. *)
Theorem label_is_empty_iff_nothing_is_present (a : address) :
  label_of_address a = [] <->
  road_candidate a = None /\ present a (py "suburb") = None.
Proof.
  rewrite label_of_address_spec.
  destruct (road_candidate a) as [r|] eqn:R;
    destruct (present a (py "suburb")) as [sb|] eqn:S; cbn [spec_label].
  - apply road_candidate_truthy in R. destruct r; [discriminate|].
    destruct (_ || _); split; try discriminate; intros [H _]; discriminate.
  - apply road_candidate_truthy in R. destruct r; [discriminate|].
    split; [discriminate | intros [H _]; discriminate].
  - apply present_truthy in S. destruct sb; [discriminate|].
    split; [discriminate | intros [_ H]; discriminate].
  - split; auto.
Qed.


End PipelineProperties.

(** ** Further properties of step 1 and of the default rule *)

Section CleanupProperties.

Lemma strip_fixed_rstrip (s : str) : strip s = s -> rstrip s = s.
Proof. intros E. rewrite <- E. apply strip_rstrip_fixed. Qed.

Lemma cleanup_fixed (s : str) :
  contains (py "-BLK") s = false ->
  contains (py "/") s = false ->
  ends_ws_RICH s = false ->
  strip s = s ->
  cleanup s = s.
Proof.
  intros B Sl R T. unfold cleanup.
  rewrite (replace_absent (py "-BLK") [] s) by (discriminate || exact B).
  rewrite (replace_absent (py "/") (py " and ") s)
    by (discriminate || exact Sl).
  rewrite re_sub_RICH_fixed; [exact T | apply strip_fixed_rstrip; exact T|].
  apply ends_ws_RICH_false. exact R.
Qed.

(** X16: a plain address goes to the forward geocoder as it stands: for a
    street text that is trimmed, holds no [-BLK], no [/] and no [ and ],
    does not end in whitespace and [RICH], does not start with [LL(] and
    lacks [RICH: @] or [BETWEEN], the first event of the row is the forward
    query for that very text followed by [, Richmond, VA]. *)
Theorem plain_address_is_sent_as_it_stands (g : Nominatim) (street : str)
    (s : state) :
  contains (py "-BLK") street = false ->
  contains (py "/") street = false ->
  ends_ws_RICH street = false ->
  strip street = street ->
  startswith (py "LL(") street = false ->
  contains (py " and ") street = false ->
  contains (py "RICH: @") street && contains (py "BETWEEN") street = false ->
  cleanup street = street /\
  exists more,
    trace (snd (geocoding_step g (cleanup street) s))
    = trace s ++ EvGeocode (street ++ py ", Richmond, VA") :: more.
Proof.
  intros B Sl R T L A M.
  rewrite (cleanup_fixed street B Sl R T). split; [reflexivity|].
  rewrite geocoding_step_run, L. unfold address_to_geocode. rewrite A, M.
  cbn [snd]. unfold after_nominatim_branch.
  destruct (geocode g _ _) as [e|[l|]]; cbn [trace];
    repeat rewrite <- app_assoc; cbn [app]; eexists; reflexivity.
Qed.

Lemma plain_address_is_sent_as_it_stands_witness :
  cleanup (py "900 E BROAD ST") = py "900 E BROAD ST" /\
  exists more,
    trace (snd (geocoding_step down (cleanup (py "900 E BROAD ST")) start))
    = trace start ++ EvGeocode (py "900 E BROAD ST" ++ py ", Richmond, VA")
                     :: more.
Proof.
  apply (plain_address_is_sent_as_it_stands down (py "900 E BROAD ST") start);
    vm_compute; reflexivity.
Defined.

Lemma contains_app_sep (sub a b : str) (w : ascii) :
  ~ In w sub ->
  contains sub (a ++ w :: b) = true ->
  contains sub a = true \/ contains sub b = true.
Proof.
  intros N H. apply contains_true in H. destruct H as (p & q & E).
  apply app_eq_app in E. destruct E as (l & [[E1 E2] | [E1 E2]]).
  - (* the occurrence starts inside [a] or at its end *)
    apply app_eq_app in E2.
    destruct E2 as (l' & [[E3 E4] | [E3 E4]]).
    + destruct l' as [|x l'].
      * rewrite app_nil_r in E3. subst. left. apply contains_true.
        exists p, []. rewrite app_nil_r. reflexivity.
      * inversion E4; subst. exfalso. apply N.
        apply in_or_app. right. left. reflexivity.
    + subst. left. apply contains_true. exists p, l'. reflexivity.
  - (* the occurrence starts after [a] *)
    destruct l as [|x l].
    + cbn [app] in E2. destruct sub as [|y sub].
      * left. apply contains_true. exists a, []. rewrite app_nil_r. reflexivity.
      * inversion E2; subst. exfalso. apply N. left. reflexivity.
    + inversion E2; subst. right. apply contains_true. exists l, q.
      reflexivity.
Qed.

Lemma match_ws_RICH_not_before (t : str) (z w : ascii) :
  isspace z = false ->
  match_ws_RICH ((t ++ [z]) ++ w :: py "RICH") = None.
Proof.
  intros Z.
  destruct (match_ws_RICH ((t ++ [z]) ++ w :: py "RICH")) as [r|] eqn:M;
    [exfalso | reflexivity].
  apply match_ws_RICH_Some in M. destruct M as (w0 & ws & E & W0 & WS & A).
  destruct r as [|n [|? ?]]; try discriminate.
  - (* the match would end the string: [z] would be whitespace *)
    rewrite app_nil_r in E.
    change ((t ++ [z]) ++ w :: py "RICH")
      with ((t ++ [z]) ++ [w] ++ py "RICH") in E.
    change (w0 :: ws ++ py "RICH") with ((w0 :: ws) ++ py "RICH") in E.
    rewrite app_assoc in E. apply app_inv_tail in E.
    assert (I : In z (w0 :: ws)).
    { rewrite <- E. apply in_or_app. left. apply in_or_app. right.
      left. reflexivity. }
    destruct I as [<-|I]; [congruence|].
    rewrite forallb_forall in WS. rewrite (WS z I) in Z. discriminate.
  - (* the match would stop before a final newline: the string ends in H *)
    change ((t ++ [z]) ++ w :: py "RICH")
      with ((t ++ [z]) ++ (w :: py "RIC") ++ ["H"%char]) in E.
    change (w0 :: ws ++ py "RICH" ++ [n])
      with ((w0 :: ws) ++ py "RICH" ++ [n]) in E.
    rewrite !app_assoc in E. apply app_inj_tail in E. destruct E as [_ E].
    subst n. cbn in A. discriminate.
Qed.

Lemma re_sub_RICH_suffix (t : str) (z w : ascii) :
  isspace z = false -> isspace w = true ->
  re_sub_RICH ((t ++ [z]) ++ w :: py "RICH") = t ++ [z].
Proof.
  intros Z W. induction t as [|c t IH].
  - cbn [app]. cbn [re_sub_RICH].
    change (match_ws_RICH (z :: w :: py "RICH"))
      with (match_ws_RICH (([] ++ [z]) ++ w :: py "RICH")).
    rewrite (match_ws_RICH_not_before [] z w Z). cbn [app]. f_equal.
    cbn [re_sub_RICH]. unfold match_ws_RICH. rewrite W. reflexivity.
  - change (((c :: t) ++ [z]) ++ w :: py "RICH")
      with (c :: (t ++ [z]) ++ w :: py "RICH").
    cbn [re_sub_RICH].
    change (c :: (t ++ [z]) ++ w :: py "RICH")
      with (((c :: t) ++ [z]) ++ w :: py "RICH").
    rewrite (match_ws_RICH_not_before (c :: t) z w Z).
    cbn [app]. f_equal. exact IH.
Qed.

(** X17: a trailing [RICH] and the whitespace character before it are
    removed, once: for a non-empty trimmed street text without [-BLK]
    and [/], cleaning the text followed by a whitespace character and
    [RICH] gives the text back, also when the text itself ends in
    [RICH]. *)
Theorem trailing_RICH_is_removed_once (street : str) (w : ascii) :
  street <> [] ->
  strip street = street ->
  contains (py "-BLK") street = false ->
  contains (py "/") street = false ->
  isspace w = true ->
  cleanup (street ++ w :: py "RICH") = street.
Proof.
  intros NE T B Sl W.
  destruct (exists_last NE) as (t & z & ->).
  assert (Z : isspace z = false).
  { apply (rstrip_fixed_last t z). apply strip_fixed_rstrip. exact T. }
  assert (Nw : forall lit, forallb (fun c => negb (isspace c)) lit = true ->
                           ~ In w lit).
  { intros lit F I. rewrite forallb_forall in F. specialize (F w I).
    rewrite W in F. discriminate. }
  assert (CB : contains (py "-BLK") ((t ++ [z]) ++ w :: py "RICH") = false).
  { destruct (contains (py "-BLK") ((t ++ [z]) ++ w :: py "RICH")) eqn:C;
      [|reflexivity].
    apply contains_app_sep in C; [|apply Nw; reflexivity].
    destruct C as [C|C]; [congruence | vm_compute in C; discriminate]. }
  assert (CS : contains (py "/") ((t ++ [z]) ++ w :: py "RICH") = false).
  { destruct (contains (py "/") ((t ++ [z]) ++ w :: py "RICH")) eqn:C;
      [|reflexivity].
    apply contains_app_sep in C; [|apply Nw; reflexivity].
    destruct C as [C|C]; [congruence | vm_compute in C; discriminate]. }
  unfold cleanup.
  rewrite (replace_absent (py "-BLK") [] _) by (discriminate || exact CB).
  rewrite (replace_absent (py "/") (py " and ") _)
    by (discriminate || exact CS).
  rewrite (re_sub_RICH_suffix t z w Z W). exact T.
Qed.

Lemma trailing_RICH_is_removed_once_witness :
  cleanup (py "5TH ST RICH" ++ " "%char :: py "RICH") = py "5TH ST RICH".
Proof.
  apply (trailing_RICH_is_removed_once (py "5TH ST RICH") " "%char);
    try (vm_compute; reflexivity).
  discriminate.
Defined.

End CleanupProperties.

(** ** Groups with more than three parts *)

Section ExtraParts.




End ExtraParts.
